(** * Dijkstra search over a weighted 8-connected grid (p1.py)

    A shallow embedding of [navigation_edges], [dijkstras_shortest_path] and
    [dijkstras_shortest_path_to_all], and the properties of the search that
    the specification states.

    Numbers.  The Python code computes on floats (and the int literals 0, 1
    and 2).  The functions below are written once over a class [Num] of the
    arithmetic the code uses; the class has two instances: IEEE binary64
    ([float], what CPython evaluates, used to run the code on concrete
    grids) and the real numbers ([R], exact arithmetic, over which the
    theorems that depend on the order of the costs are proved).  What does
    not depend on the order is proved for every instance.

    Exceptions and loops.  A Python call returns, raises, or runs forever;
    [result] has the three cases, the last one as exhausted fuel of the
    [while] loops.

    Contents: the embedding; the invariant of the search and the levels
    used as examples; lemmas on the queue, on one expansion and on the
    loops; the Dijkstra invariant and the variant of the loop; what a
    completed cost search tells on any level; the claims. *)

From Stdlib Require Import ZArith List Reals Lra Lia Floats.
From stdpp Require Import gmap.

(** ** Results of a call *)

Inductive exn := TypeError | KeyError.

Inductive result (A : Type) :=
| Returns (a : A)
| Raises (e : exn)
| NoFuel.
Arguments Returns {A} a.
Arguments Raises {A} e.
Arguments NoFuel {A}.

(** Sequencing: an exception or a loop that does not end stops the rest. *)
#[export] Instance result_bind : MBind result := λ A B k r,
  match r with
  | Returns a => k a
  | Raises e => Raises e
  | NoFuel => NoFuel
  end.

(** ** Numbers *)

Class Num (F : Type) := {
  of_int : Z → F;          (* an int literal met in float arithmetic *)
  nadd : F → F → F;        (* a + b *)
  nmul : F → F → F;        (* a * b *)
  ndiv : F → F → F;        (* a / b *)
  nsqrt : F → F;           (* math.sqrt *)
  nltb : F → F → bool;     (* a < b *)
  neqb : F → F → bool;     (* a == b *)
}.

Definition float_of_Z (z : Z) : float :=
  match z with
  | Z0 => PrimFloat.of_uint63 (Uint63.of_Z 0)
  | Zpos _ => PrimFloat.of_uint63 (Uint63.of_Z z)
  | Zneg _ => PrimFloat.opp (PrimFloat.of_uint63 (Uint63.of_Z (- z)))
  end.

#[export] Instance Num_float : Num float := {
  of_int := float_of_Z;
  nadd := PrimFloat.add;
  nmul := PrimFloat.mul;
  ndiv := PrimFloat.div;
  nsqrt := PrimFloat.sqrt;
  nltb := PrimFloat.ltb;
  neqb := PrimFloat.eqb;
}.

Definition Rltb (a b : R) : bool := if Rlt_dec a b then true else false.
Definition Reqb (a b : R) : bool := if Req_dec_T a b then true else false.

#[export] Instance Num_R : Num R := {
  of_int := IZR;
  nadd := Rplus;
  nmul := Rmult;
  ndiv := Rdiv;
  nsqrt := R_sqrt.sqrt;
  nltb := Rltb;
  neqb := Reqb;
}.

(** ** Cells and levels *)

Abbreviation cell := (Z * Z)%type.

(** A loaded level: [level['walls']], [level['spaces']],
    [level['waypoints']], the last two read with [.get(cell)]. *)
Record level (F : Type) := Level {
  walls : gset cell;
  spaces : gmap cell F;
  waypoints : gmap cell F;
}.
Arguments Level {F} _ _ _.
Arguments walls {F} _.
Arguments spaces {F} _.
Arguments waypoints {F} _.

(** [spaces.get(c)], and [wayp.get(c)] when that is [None]. *)
Definition weight {F} (lvl : level F) (c : cell) : option F :=
  match spaces lvl !! c with
  | Some w => Some w
  | None => waypoints lvl !! c
  end.

(** ** The priority queue

    [heapq] keeps the queue as a binary heap in a Python list; its contract
    is that [heappop] removes and returns a smallest item under [<].  The
    items are tuples [(cost, cell)], compared as Python compares tuples:
    by the first component where these differ ([==]), else by the cells.
    The queue is modelled as the list of queued items and [heappop] as the
    removal of a smallest one. *)

Definition cell_ltb (a b : cell) : bool :=
  if decide (a.1 = b.1) then bool_decide (a.2 < b.2)%Z else bool_decide (a.1 < b.1)%Z.

Section Engine.
Context {F : Type} `{Num F}.

Local Abbreviation entry := (F * cell)%type.

Definition entry_ltb (a b : entry) : bool :=
  if neqb a.1 b.1 then cell_ltb a.2 b.2 else nltb a.1 b.1.

Definition heappush (queue : list entry) (item : entry) : list entry :=
  queue ++ [item].

Fixpoint heappop (queue : list entry) : option (entry * list entry) :=
  match queue with
  | [] => None
  | x :: rest =>
      match heappop rest with
      | None => Some (x, [])
      | Some (m, rest') =>
          if entry_ltb m x then Some (m, x :: rest') else Some (x, rest)
      end
  end.

(** ** navigation_edges *)

(** The list [adj] of offsets and distances, [diag = sqrt(2)]. *)
Definition adj_offsets : list (cell * F) :=
  let diag := nsqrt (of_int 2) in
  [ ((-1, -1), diag); ((-1, 0), of_int 1); ((0, -1), of_int 1); ((-1, 1), diag);
    ((1, -1), diag); ((1, 0), of_int 1); ((0, 1), of_int 1); ((1, 1), diag) ]%Z.

Definition adj_points (c : cell) : list (cell * F) :=
  map (λ '((x, y), w), ((x + c.1, y + c.2)%Z, w)) adj_offsets.

(** The [for point, dist in adj_points] loop.  [weig] is the weight found
    for the queried cell, [None] when the cell has none; adding [None]
    raises [TypeError]. *)
Fixpoint edges_loop (lvl : level F) (weig : option F)
    (points : list (cell * F)) (result_ : list entry) : result (list entry) :=
  match points with
  | [] => Returns result_
  | (point, dist) :: rest =>
      if decide (point ∈ walls lvl) then edges_loop lvl weig rest result_
      else
        match weight lvl point, weig with
        | Some point_weight, Some w =>
            let cost := ndiv (nmul dist (nadd point_weight w)) (of_int 2) in
            edges_loop lvl weig rest (result_ ++ [(cost, point)])
        | _, _ => Raises TypeError
        end
  end.

Definition navigation_edges (lvl : level F) (c : cell) : result (list entry) :=
  if decide (c ∈ walls lvl) then Returns []
  else edges_loop lvl (weight lvl c) (adj_points c) [].

(** ** The loops of dijkstras_shortest_path *)

Context {G : Type}.
Variable adj : G → cell → result (list entry).
Variable graph : G.

(** The body of [for cost, node in adj(graph, currNode)]. *)
Definition relax (currNode : cell)
    (st : gmap cell (F * option cell) * list entry) (edge : entry)
    : result (gmap cell (F * option cell) * list entry) :=
  let '(tracking, queue) := st in
  let '(cost, node) := edge in
  match tracking !! currNode with
  | None => Raises KeyError
  | Some (c0, _) =>
      let pathcost := nadd cost c0 in
      match tracking !! node with
      | None =>
          Returns (<[node := (pathcost, Some currNode)]> tracking,
                   heappush queue (pathcost, node))
      | Some (c1, _) =>
          if nltb pathcost c1 then
            Returns (<[node := (pathcost, Some currNode)]> (delete node tracking),
                     heappush queue (pathcost, node))
          else Returns (tracking, queue)
      end
  end.

Fixpoint relax_all (currNode : cell) (edges : list entry)
    (st : gmap cell (F * option cell) * list entry)
    : result (gmap cell (F * option cell) * list entry) :=
  match edges with
  | [] => Returns st
  | e :: rest => st' ← relax currNode st e ; relax_all currNode rest st'
  end.

(** The inner loop [while tracking[currNode][1]: ...] and the final
    append.  A predecessor is a cell (a non-empty tuple, which is true)
    or [None]. *)
Fixpoint build_path (fuel : nat) (tracking : gmap cell (F * option cell))
    (currNode : cell) (shortest_path : list cell) : result (list cell) :=
  match fuel with
  | O => NoFuel
  | S fuel' =>
      match tracking !! currNode with
      | None => Raises KeyError
      | Some (_, Some prev) =>
          build_path fuel' tracking prev (shortest_path ++ [currNode])
      | Some (_, None) => Returns (shortest_path ++ [currNode])
      end
  end.

(** The loop [while queue: ...]; [pfuel] bounds the inner loop. *)
Fixpoint search_loop (fuel pfuel : nat) (destination : cell)
    (tracking : gmap cell (F * option cell)) (queue : list entry)
    : result (option (list cell)) :=
  match fuel with
  | O => NoFuel
  | S fuel' =>
      match heappop queue with
      | None => Returns None
      | Some ((currCost, currNode), queue') =>
          if decide (currNode = destination) then
            p ← build_path pfuel tracking currNode [] ; Returns (Some p)
          else
            edges ← adj graph currNode ;
            st ← relax_all currNode edges (tracking, queue') ;
            search_loop fuel' pfuel destination st.1 st.2
      end
  end.

(** The cells popped by the loop of [dijkstras_shortest_path], in order
    (a trace of the run, for the statements about what was popped). *)
Fixpoint popped_cells (fuel : nat) (destination : cell)
    (tracking : gmap cell (F * option cell)) (queue : list entry) : list cell :=
  match fuel with
  | O => []
  | S fuel' =>
      match heappop queue with
      | None => []
      | Some ((currCost, currNode), queue') =>
          currNode ::
          (if decide (currNode = destination) then []
           else
             match adj graph currNode with
             | Returns edges =>
                 match relax_all currNode edges (tracking, queue') with
                 | Returns st => popped_cells fuel' destination st.1 st.2
                 | _ => []
                 end
             | _ => []
             end)
      end
  end.

(** ** The loop of dijkstras_shortest_path_to_all *)

Definition relax_cost (currNode : cell)
    (st : gmap cell F * list entry) (edge : entry)
    : result (gmap cell F * list entry) :=
  let '(tracking, queue) := st in
  let '(cost, node) := edge in
  match tracking !! currNode with
  | None => Raises KeyError
  | Some c0 =>
      let pathcost := nadd cost c0 in
      match tracking !! node with
      | None =>
          Returns (<[node := pathcost]> tracking, heappush queue (pathcost, node))
      | Some c1 =>
          if nltb pathcost c1 then
            Returns (<[node := pathcost]> (delete node tracking),
                     heappush queue (pathcost, node))
          else Returns (tracking, queue)
      end
  end.

Fixpoint relax_cost_all (currNode : cell) (edges : list entry)
    (st : gmap cell F * list entry) : result (gmap cell F * list entry) :=
  match edges with
  | [] => Returns st
  | e :: rest => st' ← relax_cost currNode st e ; relax_cost_all currNode rest st'
  end.

Fixpoint to_all_loop (fuel : nat) (tracking : gmap cell F) (queue : list entry)
    : result (gmap cell F) :=
  match fuel with
  | O => NoFuel
  | S fuel' =>
      match heappop queue with
      | None => Returns tracking
      | Some ((currCost, currNode), queue') =>
          edges ← adj graph currNode ;
          st ← relax_cost_all currNode edges (tracking, queue') ;
          to_all_loop fuel' st.1 st.2
      end
  end.

(** ** Paths and their cost

    [trail start l c]: [l] lists the cells of a path of [adj] edges that
    begins at [start], last cell first, and [c] is the sum of its edge
    costs, added up in the order the search adds them. *)
Inductive trail (start : cell) : list cell → F → Prop :=
| trail_start : trail start [start] (of_int 0)
| trail_step u l c edges w v :
    trail start (u :: l) c →
    adj graph u = Returns edges →
    (w, v) ∈ edges →
    trail start (v :: u :: l) (nadd w c).

Definition reachable (start dest : cell) : Prop :=
  ∃ l c, trail start (dest :: l) c.

End Engine.

(** ** The two searches

    The arguments are those of the Python functions, in their order, after
    the fuel that bounds the iterations of each [while] loop. *)

Definition dijkstras_shortest_path {F : Type} `{Num F} {G : Type} (fuel : nat)
    (initial_position destination : cell) (graph : G)
    (adj : G → cell → result (list (F * cell))) : result (option (list cell)) :=
  let tracking := <[initial_position := (of_int 0, None)]> ∅ in
  let queue := [(of_int 0, initial_position)] in
  search_loop adj graph fuel fuel destination tracking queue.

Definition dijkstras_shortest_path_to_all {F : Type} `{Num F} {G : Type} (fuel : nat)
    (initial_position : cell) (graph : G)
    (adj : G → cell → result (list (F * cell))) : result (gmap cell F) :=
  let tracking := <[initial_position := of_int 0]> ∅ in
  let queue := [(of_int 0, initial_position)] in
  to_all_loop adj graph fuel tracking queue.

(** The cells that [dijkstras_shortest_path] pops, in order. *)
Definition search_pops {F : Type} `{Num F} {G : Type} (fuel : nat)
    (initial_position destination : cell) (graph : G)
    (adj : G → cell → result (list (F * cell))) : list cell :=
  popped_cells adj graph fuel destination
    (<[initial_position := (of_int 0, None)]> ∅) [(of_int 0, initial_position)].

(** ** Predecessor links

    [chain tracking l]: [l] begins at a tracked cell and follows the
    predecessor entries of [tracking] down to a cell whose predecessor is
    [None]. *)
Inductive chain {F} (tracking : gmap cell (F * option cell)) : list cell → Prop :=
| chain_root v c : tracking !! v = Some (c, None) → chain tracking [v]
| chain_step v c u l :
    tracking !! v = Some (c, Some u) →
    chain tracking (u :: l) →
    chain tracking (v :: u :: l).

(** The eight candidate neighbours of a cell, in the order of [adj]. *)
Definition neighbours (c : cell) : list cell :=
  [ (-1 + c.1, -1 + c.2); (-1 + c.1, 0 + c.2); (0 + c.1, -1 + c.2); (-1 + c.1, 1 + c.2);
    (1 + c.1, -1 + c.2); (1 + c.1, 0 + c.2); (0 + c.1, 1 + c.2); (1 + c.1, 1 + c.2) ]%Z.

(** The distance factor of the step from [a] to [b]: [sqrt 2] when both
    coordinates change, [1] otherwise. *)
Definition distance_factor (a b : cell) : R :=
  if decide (a.1 ≠ b.1 ∧ a.2 ≠ b.2) then R_sqrt.sqrt 2 else 1%R.

(** The four diagonal and the four orthogonal neighbours. *)
Definition diagonals (a : cell) : list cell :=
  [ (a.1 - 1, a.2 - 1); (a.1 - 1, a.2 + 1); (a.1 + 1, a.2 - 1); (a.1 + 1, a.2 + 1) ]%Z.

Definition orthogonals (a : cell) : list cell :=
  [ (a.1 - 1, a.2); (a.1, a.2 - 1); (a.1 + 1, a.2); (a.1, a.2 + 1) ]%Z.

(** ** Well-formed levels (exact arithmetic)

    Weights are positive, and every neighbour of a passable cell is a wall
    or has a weight: the weighted cells are closed in by walls, so the
    search never looks up a cell without a weight. *)
Definition passable {F} (lvl : level F) (c : cell) : Prop :=
  (c ∉ walls lvl) ∧ is_Some (weight lvl c).

Definition well_formed (lvl : level R) : Prop :=
  (∀ c w, weight lvl c = Some w → (0 < w)%R) ∧
  (∀ c n, passable lvl c → n ∈ neighbours c → n ∈ walls lvl ∨ is_Some (weight lvl n)).

(** A check of the second condition that can be computed. *)
Definition weighted_cells {F} (lvl : level F) : gset cell :=
  dom (spaces lvl) ∪ dom (waypoints lvl).

Definition closed_in {F} (lvl : level F) : Prop :=
  set_Forall
    (λ c, c ∈ walls lvl ∨
          Forall (λ n, n ∈ walls lvl ∨ n ∈ weighted_cells lvl) (neighbours c))
    (weighted_cells lvl).

#[export] Instance closed_in_dec {F} (lvl : level F) : Decision (closed_in lvl).
Proof. unfold closed_in. apply _. Defined.

(** The start is a cell of the level. *)
Definition in_level {F} (lvl : level F) (c : cell) : Prop :=
  c ∈ walls lvl ∨ is_Some (weight lvl c).

(** Iterations that suffice for both loops on a well-formed level. *)
Definition fuel_bound {F} (lvl : level F) : nat :=
  8 * (1 + size (spaces lvl) + size (waypoints lvl)) + 2.

(** ** The invariant of the search (exact arithmetic) *)

Section Invariant.
Context {G : Type}.
Variable adj : G → cell → result (list (R * cell)).
Variable graph : G.
Variable start : cell.

(** [region ok D]: the cells of [ok] have edges, at most [D] each, of
    non-negative cost, that lead to cells of [ok]. *)
Definition region (ok : cell → Prop) (D : nat) : Prop :=
  ∀ u, ok u →
    ∃ l, adj graph u = Returns l ∧ length l ≤ D ∧
         ∀ w v, (w, v) ∈ l → (0 <= w)%R ∧ ok v.

(** [tracking] and [queue] at the head of the loop; [done] is the set of
    cells that have been popped and expanded. *)
Record search_inv (ok : cell → Prop)
    (tracking : gmap cell (R * option cell)) (queue : list (R * cell))
    (done : gset cell) : Prop := {
  inv_start : tracking !! start = Some (0%R, None);
  inv_ok : ∀ v x, tracking !! v = Some x → ok v;
  inv_chain : ∀ v c p, tracking !! v = Some (c, p) →
    ∃ l, chain tracking (v :: l) ∧ NoDup (v :: l) ∧
         trail adj graph start (v :: l) c ∧ ∀ x, x ∈ l → x ∈ done;
  inv_queue : ∀ c v, (c, v) ∈ queue →
    ∃ c' p, tracking !! v = Some (c', p) ∧ (c' <= c)%R;
  inv_pending : ∀ v c p, tracking !! v = Some (c, p) → v ∉ done → (c, v) ∈ queue;
  inv_relaxed : ∀ u, u ∈ done →
    ∃ cu pu l, tracking !! u = Some (cu, pu) ∧ adj graph u = Returns l ∧
      ∀ w v, (w, v) ∈ l → ∃ cv pv, tracking !! v = Some (cv, pv) ∧ (cv <= w + cu)%R;
  inv_final : ∀ u cu pu l c, u ∈ done → tracking !! u = Some (cu, pu) →
    trail adj graph start (u :: l) c → (cu <= c)%R;
}.

(** The loop's variant. *)
Definition loop_measure (V : gset cell) (D : nat)
    (queue : list (R * cell)) (done : gset cell) : nat :=
  length queue + D * size (V ∖ done).

End Invariant.

Arguments inv_start {G adj graph start ok tracking queue done} _.
Arguments inv_ok {G adj graph start ok tracking queue done} _ _ _ _.
Arguments inv_chain {G adj graph start ok tracking queue done} _ _ _ _ _.
Arguments inv_queue {G adj graph start ok tracking queue done} _ _ _ _.
Arguments inv_pending {G adj graph start ok tracking queue done} _ _ _ _ _ _.
Arguments inv_relaxed {G adj graph start ok tracking queue done} _ _ _.
Arguments inv_final {G adj graph start ok tracking queue done} _ _ _ _ _ _ _ _ _.

(** Only the start has no predecessor. *)
Definition rooted {F} (start : cell) (tracking : gmap cell (F * option cell)) : Prop :=
  ∀ v c, tracking !! v = Some (c, None) → v = start.

(** The cells the search can track on a level, and a finite set that
    holds them. *)
Definition grid_ok {F} (lvl : level F) (start c : cell) : Prop :=
  c = start ∨ passable lvl c.

Definition grid_cells {F} (lvl : level F) (start : cell) : gset cell :=
  {[start]} ∪ (dom (spaces lvl) ∪ dom (waypoints lvl)).

(** Every tracked cell is queued at its tracked cost, or its edges are
    relaxed: the state of the cost loop whatever the sign of the costs. *)
Definition settled {G} (adj : G → cell → result (list (R * cell))) (graph : G)
    (tracking : gmap cell (R * option cell)) (queue : list (R * cell)) : Prop :=
  (∀ c v, (c, v) ∈ queue → is_Some (tracking !! v)) ∧
  (∀ u cu pu, tracking !! u = Some (cu, pu) →
     (cu, u) ∈ queue ∨
     ∃ l, adj graph u = Returns l ∧
          ∀ w v, (w, v) ∈ l →
            ∃ cv pv, tracking !! v = Some (cv, pv) ∧ (cv <= w + cu)%R).

(** ** What keeps the lookups of the loops from failing

    Every queued cell is tracked, and so is every predecessor. *)
Definition queue_tracked {F A : Type} (tracking : gmap cell A) (queue : list (F * cell)) : Prop :=
  ∀ c v, (c, v) ∈ queue → is_Some (tracking !! v).

Definition preds_tracked {F : Type} (tracking : gmap cell (F * option cell)) : Prop :=
  ∀ v c u, tracking !! v = Some (c, Some u) → is_Some (tracking !! u).

(** Every predecessor entry was written for an edge of [adj]. *)
Definition linked {F G : Type} (adj : G → cell → result (list (F * cell))) (graph : G)
    (tracking : gmap cell (F * option cell)) : Prop :=
  ∀ v c u, tracking !! v = Some (c, Some u) →
    ∃ edges w, adj graph u = Returns edges ∧ (w, v) ∈ edges.

(** A level as [well_formed] has it, but with weights that may be zero. *)
Definition nonneg_level (lvl : level R) : Prop :=
  (∀ c w, weight lvl c = Some w → (0 <= w)%R) ∧
  (∀ c n, passable lvl c → n ∈ neighbours c → n ∈ walls lvl ∨ is_Some (weight lvl n)).

(** The state of the cost loop, whatever the arithmetic: the start is
    tracked, queued cells are tracked, every tracked cell is [pending], or
    queued, or has all its edges leading to tracked cells, and every
    tracked cell is reached by a path from the start. *)
Definition explored {F G : Type} `{Num F}
    (adj : G → cell → result (list (F * cell))) (graph : G) (start : cell)
    (pending : cell → Prop) (tracking : gmap cell F) (queue : list (F * cell)) : Prop :=
  is_Some (tracking !! start) ∧
  queue_tracked tracking queue ∧
  (∀ x, is_Some (tracking !! x) →
     pending x ∨ (∃ c, (c, x) ∈ queue) ∨
     ∃ l, adj graph x = Returns l ∧ ∀ w v, (w, v) ∈ l → is_Some (tracking !! v)) ∧
  (∀ v, is_Some (tracking !! v) → reachable adj graph start v).

(** ** Levels used below *)

(** The cells of the rectangle [xs] x [ys] that are not in [inside]. *)
Definition ring (xs ys : list Z) (inside : list cell) : gset cell :=
  list_to_set (filter (λ c, c ∉ inside) (x ← xs; y ← ys; [(x, y)])).

Definition square3 : list cell :=
  (x ← [0; 1; 2]; y ← [0; 1; 2]; [(x, y)])%Z.

(** The 3x3 grid of weight 1, without walls, and with a border of walls. *)
Definition open3 : level float :=
  Level ∅ (list_to_map ((λ c, (c, 1%float)) <$> square3)) ∅.

Definition walled3 : level float :=
  Level (ring [-1; 0; 1; 2; 3] [-1; 0; 1; 2; 3] square3)%Z
        (list_to_map ((λ c, (c, 1%float)) <$> square3)) ∅.

(** A level whose only cell is a wall. *)
Definition lone_wall : level float := Level {[ (0, 0)%Z ]} ∅ ∅.

Definition lone_wall_real : level R := Level {[ (0, 0)%Z ]} ∅ ∅.

(** Two passable cells side by side, a space and a waypoint, walled in. *)
Definition corridor : level R :=
  Level (ring [-1; 0; 1; 2] [-1; 0; 1] [(0, 0); (1, 0)])%Z
        {[ (0, 0)%Z := 1%R ]} {[ (1, 0)%Z := 2%R ]}.

(** One passable cell, walled in. *)
Definition island : level R :=
  Level (ring [-1; 0; 1] [-1; 0; 1] [(0, 0)])%Z {[ (0, 0)%Z := 1%R ]} ∅.

(** The costs on [corridor] from the space. *)
Definition corridor_costs : gmap cell R :=
  <[(1, 0)%Z := (1 * (2 + 1) / 2 + 0)%R]> {[ (0, 0)%Z := 0%R ]}.

(** The corridor with both weights zero. *)
Definition flat : level R :=
  Level (ring [-1; 0; 1; 2] [-1; 0; 1] [(0, 0); (1, 0)])%Z
        {[ (0, 0)%Z := 0%R ]} {[ (1, 0)%Z := 0%R ]}.

(** An adjacency function that is not a grid: three cells with one-way
    edges, a direct edge of cost 5 and a detour of cost 1 + 1. *)
Definition one_way (graph : unit) (c : cell) : result (list (R * cell)) :=
  if decide (c = (0, 0)%Z) then Returns [(5%R, (2, 0)%Z); (1%R, (1, 0)%Z)]
  else if decide (c = (1, 0)%Z) then Returns [(1%R, (2, 0)%Z)]
  else Returns [].

(** The mapping the cost search returns on [walled3] from a start. *)
Definition walled3_costs_from (start : cell) : gmap cell float :=
  match dijkstras_shortest_path_to_all 30 start walled3 navigation_edges with
  | Returns m => m
  | _ => ∅
  end.

(** The mapping [{(0, 0): 0}]. *)
Definition origin_only : gmap cell R := {[ (0, 0)%Z := 0%R ]}.

(** ** Tactics *)

Ltac real_ops :=
  change (@nadd R Num_R) with Rplus in *;
  change (@of_int R Num_R) with IZR in *;
  change (@nltb R Num_R) with Rltb in *.

Ltac pick_offset :=
  first [ solve [left; repeat (f_equal; try lia)] | right; pick_offset ].

(** ** Basic facts, for any arithmetic *)

Section Basics.
Context {F : Type} `{Num F}.

Lemma heappop_nil (q : list (F * cell)) : heappop q = None ↔ q = [].
Proof.
  destruct q as [|x q]; simpl; [done|].
  split; [|done]. destruct (heappop q) as [[m r]|]; [|done].
  by destruct (entry_ltb m x).
Qed.

Lemma heappop_perm (q : list (F * cell)) e q' :
  heappop q = Some (e, q') → q ≡ₚ e :: q'.
Proof.
  revert e q'. induction q as [|x q IH]; intros e q' Hpop; simpl in Hpop; [done|].
  destruct (heappop q) as [[m r]|] eqn:Hq.
  - specialize (IH _ _ eq_refl).
    destruct (entry_ltb m x); simplify_eq; [|done].
    rewrite IH. apply Permutation_swap.
  - apply heappop_nil in Hq. by simplify_eq.
Qed.

Lemma heappop_length (q : list (F * cell)) e q' :
  heappop q = Some (e, q') → length q = S (length q').
Proof. intros Hpop. by rewrite (heappop_perm _ _ _ Hpop). Qed.

Lemma heappop_elem (q : list (F * cell)) e q' x :
  heappop q = Some (e, q') → x ∈ q ↔ x = e ∨ x ∈ q'.
Proof. intros Hpop. rewrite (heappop_perm _ _ _ Hpop). apply elem_of_cons. Qed.

End Basics.

Lemma size_difference_step (X Y : gset cell) (u : cell) :
  u ∈ X → u ∉ Y → size (X ∖ Y) = S (size (X ∖ (Y ∪ {[u]}))).
Proof.
  intros HuX HuY.
  assert (X ∖ Y = {[u]} ∪ X ∖ (Y ∪ {[u]})) as ->.
  { apply set_eq. intros x. rewrite elem_of_union, !elem_of_difference,
      elem_of_union, !elem_of_singleton.
    destruct (decide (x = u)) as [->|Hne]; [tauto|]. intuition. }
  rewrite size_union, size_singleton; [done|].
  intros x Hx Hx'. apply elem_of_singleton in Hx as ->.
  apply elem_of_difference in Hx' as [_ Hx']. apply Hx', elem_of_union. right.
  by apply elem_of_singleton.
Qed.

(** ** navigation_edges, for any arithmetic *)

Section Edges.
Context {F : Type} `{Num F}.
Implicit Types (lvl : level F) (c : cell).

Lemma neighbours_adj_points c : (adj_points c).*1 = neighbours c.
Proof. destruct c. reflexivity. Qed.

Lemma navigation_edges_wall lvl c : c ∈ walls lvl → navigation_edges lvl c = Returns [].
Proof. intros Hw. unfold navigation_edges. by rewrite decide_True. Qed.

Lemma edges_loop_raises lvl weig pts acc :
  (∃ p d, (p, d) ∈ pts ∧ (p ∉ walls lvl) ∧ (weight lvl p = None ∨ weig = None)) →
  edges_loop lvl weig pts acc = Raises TypeError.
Proof.
  revert acc. induction pts as [|[point dist] pts IH]; intros acc (p & d & Hin & Hnw & Hnone).
  - by apply elem_of_nil in Hin.
  - simpl. destruct (decide (point ∈ walls lvl)) as [Hw|Hw].
    + apply IH. exists p, d. apply elem_of_cons in Hin as [Heq|Hin]; [|done].
      simplify_eq. contradiction.
    + destruct (weight lvl point) as [pw|] eqn:Hpw; [|done].
      destruct weig as [w|]; [|done].
      apply IH. exists p, d. apply elem_of_cons in Hin as [Heq|Hin]; [|done].
      simplify_eq. destruct Hnone; congruence.
Qed.

(** What a normal return of the loop tells. *)
Lemma edges_loop_returns lvl weig pts acc l :
  edges_loop lvl weig pts acc = Returns l →
  (length l ≤ length acc + length pts)%nat ∧
  (∀ p d, (p, d) ∈ pts → p ∉ walls lvl →
     ∃ pw w, weight lvl p = Some pw ∧ weig = Some w ∧
             (ndiv (nmul d (nadd pw w)) (of_int 2), p) ∈ l) ∧
  (∀ cost p, (cost, p) ∈ l →
     (cost, p) ∈ acc ∨
     ∃ d pw w, (p, d) ∈ pts ∧ (p ∉ walls lvl) ∧ weight lvl p = Some pw ∧ weig = Some w ∧
               cost = ndiv (nmul d (nadd pw w)) (of_int 2)) ∧
  (∀ e, e ∈ acc → e ∈ l).
Proof.
  revert acc. induction pts as [|[point dist] pts IH]; intros acc Hret; simpl in Hret.
  - simplify_eq. split_and!; [simpl; lia| |by left|done].
    intros p d Hin. by apply elem_of_nil in Hin.
  - destruct (decide (point ∈ walls lvl)) as [Hw|Hw].
    + destruct (IH _ Hret) as (Hlen & Hall & Hsrc & Hacc).
      split_and!; [simpl; lia| | |done].
      * intros p d Hin Hnw. apply elem_of_cons in Hin as [Heq|Hin]; [by simplify_eq|eauto].
      * intros cost p Hin. destruct (Hsrc _ _ Hin) as [?|(d & pw & w & Hd & ?)]; [by left|].
        right. exists d, pw, w. split; [by apply elem_of_cons; right|done].
    + destruct (weight lvl point) as [pw0|] eqn:Hpw; [|done].
      destruct weig as [w0|]; [|done].
      destruct (IH _ Hret) as (Hlen & Hall & Hsrc & Hacc).
      rewrite length_app in Hlen. simpl in Hlen.
      split_and!; [simpl; lia| | |].
      * intros p d Hin Hnw. apply elem_of_cons in Hin as [Heq|Hin]; [|eauto].
        simplify_eq. exists pw0, w0. split_and!; [done..|].
        apply Hacc, elem_of_app. right. by apply list_elem_of_singleton.
      * intros cost p Hin. destruct (Hsrc _ _ Hin) as [Hin'|(d & pw & w & Hd & ?)].
        -- apply elem_of_app in Hin' as [?|Hin']; [by left|].
           apply list_elem_of_singleton in Hin'. simplify_eq.
           right. exists dist, pw0, w0. split; [by apply elem_of_cons; left|done].
        -- right. exists d, pw, w. split; [by apply elem_of_cons; right|done].
      * intros e He. apply Hacc, elem_of_app. by left.
Qed.

Lemma adj_points_length c : length (adj_points c) = 8%nat.
Proof. reflexivity. Qed.

Lemma adj_points_neighbour c p d : (p, d) ∈ adj_points c → p ∈ neighbours c.
Proof.
  intros Hin. rewrite <- neighbours_adj_points.
  apply list_elem_of_fmap. by exists (p, d).
Qed.

Lemma neighbour_adj_points c p : p ∈ neighbours c → ∃ d, (p, d) ∈ adj_points c.
Proof.
  rewrite <- neighbours_adj_points. intros Hin.
  apply list_elem_of_fmap in Hin as ([p' d] & -> & Hin). by exists d.
Qed.

(** A normal return lists only passable neighbours, at most eight. *)
Lemma navigation_edges_returns lvl c l :
  navigation_edges lvl c = Returns l →
  (length l ≤ 8)%nat ∧
  ∀ cost p, (cost, p) ∈ l →
    (c ∉ walls lvl) ∧ (p ∉ walls lvl) ∧ p ∈ neighbours c ∧
    ∃ d pw w, (p, d) ∈ adj_points c ∧ weight lvl p = Some pw ∧ weight lvl c = Some w ∧
              cost = ndiv (nmul d (nadd pw w)) (of_int 2).
Proof.
  unfold navigation_edges. destruct (decide (c ∈ walls lvl)) as [Hw|Hw]; intros Hret.
  - simplify_eq. split; [simpl; lia|]. intros ?? Hin. by apply elem_of_nil in Hin.
  - apply edges_loop_returns in Hret as (Hlen & _ & Hsrc & _).
    split; [by rewrite adj_points_length in Hlen|].
    intros cost p Hin. destruct (Hsrc _ _ Hin) as [Hn|(d & pw & w & Hd & ? & ? & ? & ?)].
    + by apply elem_of_nil in Hn.
    + split_and!; [done..|by eapply adj_points_neighbour|]. by exists d, pw, w.
Qed.

End Edges.

(** ** The search loops, for any arithmetic and any adjacency function *)

Section Loops.
Context {F : Type} `{Num F} {G : Type}.
Variable adj : G → cell → result (list (F * cell)).
Variable graph : G.
Implicit Types (T : gmap cell (F * option cell)) (Q : list (F * cell)).

Lemma bind_returns {A B} (r : result A) (k : A → result B) b :
  r ≫= k = Returns b → ∃ a, r = Returns a ∧ k a = Returns b.
Proof. destruct r; [eauto|done..]. Qed.

(** One relaxation either leaves the state alone or records the cheaper
    cost with the expanded cell as predecessor and queues the neighbour. *)
Lemma relax_returns u T Q cost node T' Q' :
  relax u (T, Q) (cost, node) = Returns (T', Q') →
  ∃ c0 p0, T !! u = Some (c0, p0) ∧
    ((T' = T ∧ Q' = Q ∧
      ∃ c1 p1, T !! node = Some (c1, p1) ∧ nltb (nadd cost c0) c1 = false) ∨
     (T' = <[node := (nadd cost c0, Some u)]> T ∧ Q' = Q ++ [(nadd cost c0, node)] ∧
      (T !! node = None ∨
       ∃ c1 p1, T !! node = Some (c1, p1) ∧ nltb (nadd cost c0) c1 = true))).
Proof.
  unfold relax. destruct (T !! u) as [[c0 p0]|] eqn:Hu; [|done].
  intros Hret. exists c0, p0. split; [done|].
  destruct (T !! node) as [[c1 p1]|] eqn:Hn.
  - destruct (nltb (nadd cost c0) c1) eqn:Hlt; simplify_eq.
    + right. rewrite insert_delete_eq. split_and!; [done..|]. right. by exists c1, p1.
    + left. split_and!; [done..|]. by exists c1, p1.
  - simplify_eq. right. split_and!; [done..|]. by left.
Qed.

Lemma relax_total u T Q e c0 p0 :
  T !! u = Some (c0, p0) → ∃ T' Q', relax u (T, Q) e = Returns (T', Q').
Proof.
  intros Hu. destruct e as [cost node]. unfold relax. rewrite Hu.
  destruct (T !! node) as [[c1 p1]|]; [|eauto].
  destruct (nltb (nadd cost c0) c1); eauto.
Qed.

Lemma build_path_chain fuel T v l acc :
  chain T (v :: l) → (length (v :: l) ≤ fuel)%nat →
  build_path fuel T v acc = Returns (acc ++ v :: l).
Proof.
  revert v l acc. induction fuel as [|fuel IH]; intros v l acc Hch Hlen; simpl in *; [lia|].
  inversion Hch as [v' c Hv|v' c u l' Hv Hch']; simplify_eq; rewrite Hv; [done|].
  rewrite (IH u l'); [|done|simpl in *; lia]. by rewrite <- app_assoc.
Qed.

Lemma build_path_returns fuel T v acc p :
  build_path fuel T v acc = Returns p → ∃ l, p = acc ++ v :: l ∧ chain T (v :: l).
Proof.
  revert v acc. induction fuel as [|fuel IH]; intros v acc Hret; simpl in Hret; [done|].
  destruct (T !! v) as [[c [u|]]|] eqn:Hv; [| |done].
  - apply IH in Hret as (l & -> & Hch). exists (u :: l).
    rewrite <- app_assoc. split; [done|]. by eapply chain_step.
  - simplify_eq. exists []. split; [done|]. by eapply chain_root.
Qed.

Lemma chain_last T l start :
  chain T l → (∀ v c, T !! v = Some (c, None) → v = start) → last l = Some start.
Proof.
  intros Hch Hroot. induction Hch as [v c Hv|v c u l Hv Hch IH]; simpl.
  - by rewrite (Hroot _ _ Hv).
  - done.
Qed.

Lemma relax_rooted start u T Q e T' Q' :
  relax u (T, Q) e = Returns (T', Q') → rooted start T → rooted start T'.
Proof.
  destruct e as [cost node]. intros Hret Hroot.
  apply relax_returns in Hret as (c0 & p0 & _ & [(-> & _)|(-> & _)]); [done|].
  intros v c Hv. apply lookup_insert_Some in Hv as [[_ ?]|[_ Hv]]; [done|eauto].
Qed.

Lemma relax_all_rooted start u edges T Q T' Q' :
  relax_all u edges (T, Q) = Returns (T', Q') → rooted start T → rooted start T'.
Proof.
  revert T Q. induction edges as [|e edges IH]; intros T Q Hret Hroot; simpl in Hret.
  - by simplify_eq.
  - apply bind_returns in Hret as ([T1 Q1] & Hstep & Hret).
    eapply IH; [done|]. by eapply relax_rooted.
Qed.

Lemma search_loop_ends start fuel pfuel dest T Q p :
  search_loop adj graph fuel pfuel dest T Q = Returns (Some p) →
  rooted start T →
  head p = Some dest ∧ last p = Some start.
Proof.
  revert T Q. induction fuel as [|fuel IH]; intros T Q Hret Hroot; simpl in Hret; [done|].
  destruct (heappop Q) as [[[currCost currNode] Q']|]; [|done].
  destruct (decide (currNode = dest)) as [->|Hne].
  - apply bind_returns in Hret as (p' & Hbuild & Hret). simplify_eq.
    apply build_path_returns in Hbuild as (l & -> & Hch).
    split; [done|]. by eapply chain_last.
  - apply bind_returns in Hret as (edges & Hadj & Hret).
    apply bind_returns in Hret as ([T1 Q1] & Hrel & Hret).
    eapply IH; [done|]. by eapply relax_all_rooted.
Qed.

Lemma rooted_init start (c : F) : rooted start (<[start := (c, None)]> ∅).
Proof.
  intros v c' Hv. apply lookup_insert_Some in Hv as [[? _]|[_ Hv]]; [done|].
  by rewrite lookup_empty in Hv.
Qed.

(** Popping the start when it is the destination. *)
Lemma search_start_is_destination fuel start :
  dijkstras_shortest_path (S fuel) start start graph adj = Returns (Some [start]).
Proof.
  unfold dijkstras_shortest_path. simpl.
  rewrite decide_True by done. simpl. by rewrite lookup_insert_eq.
Qed.

(** More fuel does not change a result. *)
Lemma build_path_fuel_mono fuel fuel' T v acc p :
  build_path fuel T v acc = Returns p → (fuel ≤ fuel')%nat →
  build_path fuel' T v acc = Returns p.
Proof.
  revert fuel' v acc. induction fuel as [|fuel IH]; intros fuel' v acc Hret Hle; [done|].
  destruct fuel' as [|fuel']; [lia|]. simpl in *.
  destruct (T !! v) as [[c [u|]]|]; [|done..].
  apply IH; [done|lia].
Qed.

Lemma search_loop_fuel_mono fuel fuel' pfuel pfuel' dest T Q r :
  search_loop adj graph fuel pfuel dest T Q = Returns r →
  (fuel ≤ fuel')%nat → (pfuel ≤ pfuel')%nat →
  search_loop adj graph fuel' pfuel' dest T Q = Returns r.
Proof.
  revert fuel' T Q. induction fuel as [|fuel IH]; intros fuel' T Q Hret Hle Hple; [done|].
  destruct fuel' as [|fuel']; [lia|]. simpl in *.
  destruct (heappop Q) as [[[currCost currNode] Q']|]; [|done].
  destruct (decide (currNode = dest)) as [->|Hne].
  - apply bind_returns in Hret as (p' & Hbuild & Hret).
    by rewrite (build_path_fuel_mono _ _ _ _ _ _ Hbuild Hple).
  - apply bind_returns in Hret as (edges & Hadj & Hret). rewrite Hadj. simpl.
    apply bind_returns in Hret as ([T1 Q1] & Hrel & Hret). rewrite Hrel. simpl.
    apply IH; [done|lia|done].
Qed.

Lemma to_all_loop_fuel_mono (fuel fuel' : nat) (M : gmap cell F) Q m :
  to_all_loop adj graph fuel M Q = Returns m → (fuel ≤ fuel')%nat →
  to_all_loop adj graph fuel' M Q = Returns m.
Proof.
  revert fuel' M Q. induction fuel as [|fuel IH]; intros fuel' M Q Hret Hle; [done|].
  destruct fuel' as [|fuel']; [lia|]. simpl in *.
  destruct (heappop Q) as [[[currCost currNode] Q']|]; [|done].
  apply bind_returns in Hret as (edges & Hadj & Hret). rewrite Hadj. simpl.
  apply bind_returns in Hret as ([T1 Q1] & Hrel & Hret). rewrite Hrel. simpl.
  apply IH; [done|lia].
Qed.

(** The cost-only loop does what the loop with predecessors does. *)
Lemma relax_cost_sim u T Q e :
  relax_cost u (fst <$> T, Q) e =
  match relax u (T, Q) e with
  | Returns st => Returns (fst <$> st.1, st.2)
  | Raises x => Raises x
  | NoFuel => NoFuel
  end.
Proof.
  destruct e as [cost node]. unfold relax_cost, relax. rewrite !lookup_fmap.
  destruct (T !! u) as [[c0 p0]|]; [|done]. simpl.
  destruct (T !! node) as [[c1 p1]|]; simpl.
  - destruct (nltb (nadd cost c0) c1); [|done]. simpl.
    by rewrite fmap_insert, fmap_delete.
  - by rewrite fmap_insert.
Qed.

Lemma relax_cost_all_sim u edges T Q :
  relax_cost_all u edges (fst <$> T, Q) =
  match relax_all u edges (T, Q) with
  | Returns st => Returns (fst <$> st.1, st.2)
  | Raises x => Raises x
  | NoFuel => NoFuel
  end.
Proof.
  revert T Q. induction edges as [|e edges IH]; intros T Q; [done|].
  change (relax_cost_all u (e :: edges) (fst <$> T, Q))
    with (relax_cost u (fst <$> T, Q) e ≫= relax_cost_all u edges).
  change (relax_all u (e :: edges) (T, Q))
    with (relax u (T, Q) e ≫= relax_all u edges).
  rewrite relax_cost_sim. destruct (relax u (T, Q) e) as [[T1 Q1]| |]; [|done..].
  apply IH.
Qed.

(** A search that returns gives [None] exactly when the destination was
    never popped. *)
Lemma search_loop_none_iff fuel pfuel dest T Q r :
  search_loop adj graph fuel pfuel dest T Q = Returns r →
  r = None ↔ dest ∉ popped_cells adj graph fuel dest T Q.
Proof.
  revert T Q. induction fuel as [|fuel IH]; intros T Q Hret; simpl in *; [done|].
  destruct (heappop Q) as [[[currCost currNode] Q']|].
  - destruct (decide (currNode = dest)) as [->|Hne].
    + apply bind_returns in Hret as (p' & _ & Hret). simplify_eq.
      split; [done|]. intros Hnot. destruct Hnot. by left.
    + apply bind_returns in Hret as (edges & Hadj & Hret). rewrite Hadj.
      apply bind_returns in Hret as ([T1 Q1] & Hrel & Hret). rewrite Hrel.
      rewrite (IH _ _ Hret). simpl. rewrite not_elem_of_cons.
      split; [by intros ?|by intros [_ ?]].
  - simplify_eq. split; [|done]. intros _. apply not_elem_of_nil.
Qed.

(** A search that ends without a path has run the whole cost loop. *)
Lemma search_none_to_all fuel pfuel dest T Q :
  search_loop adj graph fuel pfuel dest T Q = Returns None →
  ∃ m, to_all_loop adj graph fuel (fst <$> T) Q = Returns m.
Proof.
  revert T Q. induction fuel as [|fuel IH]; intros T Q Hret; simpl in *; [done|].
  destruct (heappop Q) as [[[currCost currNode] Q']|]; [|by eexists].
  destruct (decide (currNode = dest)) as [->|Hne].
  - apply bind_returns in Hret as (p' & _ & Hret). done.
  - apply bind_returns in Hret as (edges & Hadj & Hret). rewrite Hadj. simpl.
    apply bind_returns in Hret as ([T1 Q1] & Hrel & Hret).
    rewrite relax_cost_all_sim, Hrel. simpl. by apply IH.
Qed.

End Loops.

(** ** Exact arithmetic: order, the queue, one expansion *)

Section RealOrder.
Local Open Scope R_scope.
Implicit Types (T : gmap cell (R * option cell)) (Q : list (R * cell)).

Lemma Rltb_true a b : Rltb a b = true ↔ a < b.
Proof. unfold Rltb. destruct (Rlt_dec a b); split; (done || lra). Qed.

Lemma Rltb_false a b : Rltb a b = false ↔ b <= a.
Proof. unfold Rltb. destruct (Rlt_dec a b); split; (done || lra). Qed.

Lemma Reqb_true a b : Reqb a b = true ↔ a = b.
Proof. unfold Reqb. destruct (Req_dec_T a b); split; (done || lra). Qed.

Lemma entry_ltb_le (a b : R * cell) : entry_ltb a b = true → a.1 <= b.1.
Proof.
  unfold entry_ltb. simpl. destruct (Reqb a.1 b.1) eqn:He.
  - apply Reqb_true in He. lra.
  - intros Hlt%Rltb_true. lra.
Qed.

Lemma entry_ltb_ge (a b : R * cell) : entry_ltb a b = false → b.1 <= a.1.
Proof.
  unfold entry_ltb. simpl. destruct (Reqb a.1 b.1) eqn:He.
  - apply Reqb_true in He. lra.
  - intros Hlt%Rltb_false. lra.
Qed.

(** [heappop] returns an entry of least cost. *)
Lemma heappop_min Q c u Q' :
  heappop Q = Some ((c, u), Q') → ∀ c' v, (c', v) ∈ Q → c <= c'.
Proof.
  revert c u Q'. induction Q as [|x Q IH]; intros c u Q' Hpop c' v Hin; simpl in Hpop; [done|].
  destruct (heappop Q) as [[[cm um] r]|] eqn:HQ.
  - specialize (IH _ _ _ eq_refl).
    destruct (entry_ltb (cm, um) x) eqn:Hlt; simplify_eq.
    + apply entry_ltb_le in Hlt. simpl in Hlt.
      apply elem_of_cons in Hin as [Heq|Hin]; [by simplify_eq|by eapply IH].
    + apply entry_ltb_ge in Hlt. simpl in Hlt.
      apply elem_of_cons in Hin as [Heq|Hin]; [simplify_eq; simpl; lra|].
      specialize (IH _ _ Hin). lra.
  - apply heappop_nil in HQ. simplify_eq.
    apply list_elem_of_singleton in Hin. simplify_eq. lra.
Qed.

(** Python's order on the queued tuples, spelled out. *)
Lemma entry_ltb_spec (a b : R * cell) :
  entry_ltb a b = true ↔
  a.1 < b.1 ∨ (a.1 = b.1 ∧ (a.2.1 < b.2.1 ∨ (a.2.1 = b.2.1 ∧ a.2.2 < b.2.2))%Z).
Proof.
  unfold entry_ltb, cell_ltb. simpl. destruct (Reqb a.1 b.1) eqn:He.
  - apply Reqb_true in He. case_decide as Hd; rewrite bool_decide_eq_true.
    + split; [intros ?; right; split; [done|by right]|].
      intros [?|[_ [?|[_ ?]]]]; [lra|lia|done].
    + split; [intros ?; right; split; [done|by left]|].
      intros [?|[_ [?|[? _]]]]; [lra|done|done].
  - rewrite Rltb_true. split; [by left|]. intros [?|[Heq _]]; [done|].
    apply Reqb_true in Heq. congruence.
Qed.

(** No queued entry is smaller than the popped one. *)
Lemma heappop_least Q e Q' :
  heappop Q = Some (e, Q') → ∀ x, x ∈ Q → entry_ltb x e = false.
Proof.
  revert e Q'. induction Q as [|y Q IH]; intros e Q' Hpop x Hin; simpl in Hpop; [done|].
  apply not_true_is_false. rewrite entry_ltb_spec.
  destruct (heappop Q) as [[m r]|] eqn:HQ.
  - specialize (IH _ _ eq_refl).
    destruct (entry_ltb m y) eqn:Hlt; simplify_eq.
    + apply entry_ltb_spec in Hlt.
      apply elem_of_cons in Hin as [->|Hin].
      * intros Hyx. destruct Hlt as [?|[? [?|[? ?]]]], Hyx as [?|[? [?|[? ?]]]]; lra || lia.
      * specialize (IH _ Hin). apply not_true_iff_false in IH.
        by rewrite entry_ltb_spec in IH.
    + apply not_true_iff_false in Hlt. rewrite entry_ltb_spec in Hlt.
      apply elem_of_cons in Hin as [->|Hin].
      * intros [?|[_ [?|[_ ?]]]]; lra || lia.
      * specialize (IH _ Hin). apply not_true_iff_false in IH.
        rewrite entry_ltb_spec in IH. intros Hxe.
        destruct (Rtotal_order m.1 e.1) as [?|[?|?]],
                 (Rtotal_order x.1 m.1) as [?|[?|?]];
          try (apply Hlt; left; lra); try (apply IH; left; lra);
          try (destruct Hxe as [?|[? _]]; lra).
        destruct (Z.lt_total m.2.1 e.2.1) as [?|[?|?]],
                 (Z.lt_total x.2.1 m.2.1) as [?|[?|?]];
          try (apply Hlt; right; split; [done|left; lia]);
          try (apply IH; right; split; [done|left; lia]);
          try (destruct Hxe as [?|[_ [?|[? _]]]]; lra || lia).
        destruct (Z.lt_total m.2.2 e.2.2) as [?|[?|?]],
                 (Z.lt_total x.2.2 m.2.2) as [?|[?|?]];
          try (apply Hlt; right; split; [done|right; split; [done|lia]]);
          try (apply IH; right; split; [done|right; split; [done|lia]]);
          try (destruct Hxe as [?|[_ [?|[_ ?]]]]; lra || lia).
  - apply heappop_nil in HQ. simplify_eq.
    apply list_elem_of_singleton in Hin. simplify_eq.
    intros [?|[_ [?|[_ ?]]]]; lra || lia.
Qed.

Lemma relax_real u T Q w v c0 p0 :
  T !! u = Some (c0, p0) →
  ∃ T' Q', relax u (T, Q) (w, v) = Returns (T', Q') ∧
    ((T' = T ∧ Q' = Q ∧ ∃ c1 p1, T !! v = Some (c1, p1) ∧ c1 <= w + c0) ∨
     (T' = <[v := (w + c0, Some u)]> T ∧ Q' = Q ++ [(w + c0, v)] ∧
      ∀ c1 p1, T !! v = Some (c1, p1) → w + c0 < c1)).
Proof.
  intros Hu. destruct (relax_total u T Q (w, v) c0 p0 Hu) as (T' & Q' & Hret).
  exists T', Q'. split; [done|].
  apply relax_returns in Hret as (c0' & p0' & Hu' & Hcase). simplify_eq. simpl in Hcase.
  destruct Hcase as [(-> & -> & c1 & p1 & Hv & Hlt)|(-> & -> & Hcase)].
  - left. split_and!; [done..|]. exists c1, p1. split; [done|]. by apply Rltb_false.
  - right. split_and!; [done..|]. intros c1 p1 Hv.
    destruct Hcase as [Hnone|(c1' & p1' & Hv' & Hlt)]; [congruence|].
    simplify_eq. by apply Rltb_true.
Qed.

(** The effect of the [for] loop over the edges of [u], tracked at [cu]. *)
Lemma relax_all_spec u cu pu l : ∀ T Q,
  T !! u = Some (cu, pu) →
  (∀ w, (w, u) ∈ l → cu <= w + cu) →
  ∃ T' Q', relax_all u l (T, Q) = Returns (T', Q') ∧
    T' !! u = Some (cu, pu) ∧
    (∀ v, T' !! v = T !! v ∨
          ∃ w, (w, v) ∈ l ∧ T' !! v = Some (w + cu, Some u) ∧ (w + cu, v) ∈ Q' ∧
               ∀ cv pv, T !! v = Some (cv, pv) → w + cu < cv) ∧
    (∀ w v, (w, v) ∈ l → ∃ cv pv, T' !! v = Some (cv, pv) ∧ cv <= w + cu) ∧
    (∀ e, e ∈ Q → e ∈ Q') ∧
    (∀ c v, (c, v) ∈ Q' →
       (c, v) ∈ Q ∨
       ∃ w, (w, v) ∈ l ∧ c = w + cu ∧ ∃ cv pv, T' !! v = Some (cv, pv) ∧ cv <= c) ∧
    (length Q' ≤ length Q + length l)%nat ∧
    (∀ v cv pv, T !! v = Some (cv, pv) →
       ∃ cv' pv', T' !! v = Some (cv', pv') ∧ cv' <= cv).
Proof.
  induction l as [|[w0 v0] l IH]; intros T Q Hu Hself.
  - exists T, Q. split_and!.
    + done.
    + done.
    + by left.
    + intros w v Hin. by apply elem_of_nil in Hin.
    + done.
    + by left.
    + simpl. lia.
    + intros v cv pv Hv. exists cv, pv. split; [done|lra].
  - destruct (relax_real u T Q w0 v0 cu pu Hu) as (T1 & Q1 & Hstep & Hcase).
    assert (T1 !! u = Some (cu, pu)) as Hu1.
    { destruct Hcase as [(-> & _)|(-> & _ & Hlt)]; [done|].
      destruct (decide (v0 = u)) as [->|Hne]; [|by rewrite lookup_insert_ne].
      specialize (Hlt _ _ Hu). specialize (Hself w0 ltac:(by left)). lra. }
    assert (∀ v cv pv, T !! v = Some (cv, pv) →
              ∃ cv' pv', T1 !! v = Some (cv', pv') ∧ cv' <= cv) as Hmono1.
    { intros v cv pv Hv. destruct Hcase as [(-> & _)|(-> & _ & Hlt)].
      - exists cv, pv. split; [done|lra].
      - destruct (decide (v0 = v)) as [->|Hne].
        + rewrite lookup_insert_eq. eexists _, _. split; [done|].
          specialize (Hlt _ _ Hv). lra.
        + rewrite lookup_insert_ne by done. exists cv, pv. split; [done|lra]. }
    assert (∃ c1 p1, T1 !! v0 = Some (c1, p1) ∧ c1 <= w0 + cu) as Hv01.
    { destruct Hcase as [(-> & _ & c1 & p1 & ? & ?)|(-> & _)]; [by exists c1, p1|].
      rewrite lookup_insert_eq. eexists _, _. split; [done|lra]. }
    assert (∀ e, e ∈ Q → e ∈ Q1) as HQ1.
    { intros e He. destruct Hcase as [(_ & -> & _)|(_ & -> & _)]; [done|].
      apply elem_of_app. by left. }
    assert (length Q1 ≤ S (length Q))%nat as Hlen1.
    { destruct Hcase as [(_ & -> & _)|(_ & -> & _)]; [lia|].
      rewrite length_app. simpl. lia. }
    destruct (IH T1 Q1 Hu1) as (T' & Q' & Hret & Hu' & Hupd & Hrel & HQ & Hsrc & Hlen & Hmono).
    { intros w Hin. apply Hself. by right. }
    exists T', Q'. split_and!.
    + change (relax_all u ((w0, v0) :: l) (T, Q))
        with (relax u (T, Q) (w0, v0) ≫= relax_all u l).
      by rewrite Hstep.
    + done.
    + intros v. destruct (Hupd v) as [Heq|(w & Hin & Hv' & HinQ & Hlt)].
      * destruct Hcase as [(-> & _)|(-> & -> & Hlt0)]; [by left|].
        destruct (decide (v0 = v)) as [->|Hne]; [|left; by rewrite Heq, lookup_insert_ne].
        right. exists w0. rewrite Heq, lookup_insert_eq.
        split_and!; [by left|done| |done].
        apply HQ, elem_of_app. right. by apply list_elem_of_singleton.
      * right. exists w. split_and!; [by right|done..|].
        intros cv pv Hv. destruct (Hmono1 _ _ _ Hv) as (cv1 & pv1 & Hv1 & Hle).
        specialize (Hlt _ _ Hv1). lra.
    + intros w v Hin. apply elem_of_cons in Hin as [Heq|Hin]; [|by apply Hrel].
      simplify_eq. destruct Hv01 as (c1 & p1 & Hv1 & Hle).
      destruct (Hmono _ _ _ Hv1) as (cv' & pv' & Hv' & Hle').
      exists cv', pv'. split; [done|lra].
    + intros e He. by apply HQ, HQ1.
    + intros c v Hin. destruct (Hsrc _ _ Hin) as [Hin1|(w & Hw & -> & Hcv)].
      * destruct Hcase as [(_ & -> & _)|(-> & -> & _)]; [by left|].
        apply elem_of_app in Hin1 as [?|Hin1]; [by left|].
        apply list_elem_of_singleton in Hin1. simplify_eq.
        right. exists w0. split_and!; [by left|done|].
        destruct (Hmono v0 (w0 + cu) (Some u)) as (cv' & pv' & Hv' & Hle').
        { by rewrite lookup_insert_eq. }
        by exists cv', pv'.
      * right. exists w. split_and!; [by right|done..].
    + simpl. lia.
    + intros v cv pv Hv. destruct (Hmono1 _ _ _ Hv) as (cv1 & pv1 & Hv1 & Hle).
      destruct (Hmono _ _ _ Hv1) as (cv' & pv' & Hv' & Hle').
      exists cv', pv'. split; [done|lra].
Qed.

(** Nothing changes when every edge is already relaxed. *)
Lemma relax_all_noop u cu pu l T Q :
  T !! u = Some (cu, pu) →
  (∀ w v, (w, v) ∈ l → ∃ cv pv, T !! v = Some (cv, pv) ∧ cv <= w + cu) →
  relax_all u l (T, Q) = Returns (T, Q).
Proof.
  intros Hu. induction l as [|[w0 v0] l IH]; intros Hrel; [done|].
  change (relax_all u ((w0, v0) :: l) (T, Q))
    with (relax u (T, Q) (w0, v0) ≫= relax_all u l).
  destruct (relax_real u T Q w0 v0 cu pu Hu) as (T1 & Q1 & -> & Hcase).
  destruct (Hrel w0 v0 ltac:(by left)) as (cv & pv & Hv & Hle).
  destruct Hcase as [(-> & -> & _)|(_ & _ & Hlt)].
  - apply IH. intros w v Hin. apply Hrel. by right.
  - specialize (Hlt _ _ Hv). lra.
Qed.

End RealOrder.

(** ** Exact arithmetic: the invariant holds along the search *)

Section Dijkstra.
Local Open Scope R_scope.
Context {G : Type}.
Variable adj : G → cell → result (list (R * cell)).
Variable graph : G.
Variable start : cell.
Variable ok : cell → Prop.
Variable V : gset cell.
Variable D : nat.
Hypothesis Hregion : region adj graph ok D.
Hypothesis HV : ∀ v, ok v → v ∈ V.
Hypothesis Hstart : ok start.
Implicit Types (T : gmap cell (R * option cell)) (Q : list (R * cell)) (S : gset cell).

Lemma region_edge u l w v :
  ok u → adj graph u = Returns l → (w, v) ∈ l → 0 <= w ∧ ok v.
Proof.
  intros Hu Hadj Hin. destruct (Hregion u Hu) as (l' & Hadj' & _ & Hl').
  rewrite Hadj in Hadj'. simplify_eq. by apply Hl'.
Qed.

Lemma trail_ok l c : trail adj graph start l c → ∀ x, x ∈ l → ok x.
Proof.
  induction 1 as [|u l c edges w v Htr IH Hadj Hin]; intros x Hx.
  - apply list_elem_of_singleton in Hx. by subst.
  - apply elem_of_cons in Hx as [->|Hx]; [|by apply IH].
    eapply region_edge; [|done..]. apply IH. by left.
Qed.

Lemma trail_nonneg l c : trail adj graph start l c → 0 <= c.
Proof.
  induction 1 as [|u l c edges w v Htr IH Hadj Hin]; real_ops; [lra|].
  assert (ok u) as Hu by (eapply trail_ok; [done|by left]).
  destruct (region_edge _ _ _ _ Hu Hadj Hin). lra.
Qed.

Lemma chain_ext T T' l :
  chain T l → (∀ x, x ∈ l → T' !! x = T !! x) → chain T' l.
Proof.
  induction 1 as [v c Hv|v c u l Hv Hch IH]; intros Heq.
  - eapply chain_root. rewrite Heq; [done|by left].
  - eapply chain_step.
    + rewrite Heq; [done|by left].
    + apply IH. intros x Hx. apply Heq. by right.
Qed.

Lemma search_inv_init :
  search_inv adj graph start ok (<[start := (0, None)]> ∅) [(0, start)] ∅.
Proof.
  split.
  - by rewrite lookup_insert_eq.
  - intros v x Hv. apply lookup_insert_Some in Hv as [[<- _]|[_ Hv]]; [done|].
    by rewrite lookup_empty in Hv.
  - intros v c p Hv. apply lookup_insert_Some in Hv as [[<- ?]|[_ Hv]];
      [|by rewrite lookup_empty in Hv].
    simplify_eq. exists []. split_and!.
    + eapply chain_root. by rewrite lookup_insert_eq.
    + apply NoDup_singleton.
    + exact (trail_start adj graph start).
    + intros x Hx. by apply elem_of_nil in Hx.
  - intros c v Hin. apply list_elem_of_singleton in Hin. simplify_eq.
    exists 0, None. rewrite lookup_insert_eq. split; [done|lra].
  - intros v c p Hv _. apply lookup_insert_Some in Hv as [[<- ?]|[_ Hv]];
      [|by rewrite lookup_empty in Hv].
    simplify_eq. by left.
  - intros u Hu. by apply not_elem_of_empty in Hu.
  - intros u cu pu l c Hu. by apply not_elem_of_empty in Hu.
Qed.

(** A path from the start either ends at an expanded cell, tracked at no
    more than the path's cost, or passes a tracked cell that is not yet
    expanded and is tracked at no more than the path's cost. *)
Lemma frontier T Q S l c :
  search_inv adj graph start ok T Q S →
  trail adj graph start l c →
  ∃ v l', l = v :: l' ∧
    ((v ∈ S ∧ ∃ cv pv, T !! v = Some (cv, pv) ∧ cv <= c) ∨
     (∃ y cy py, (y ∉ S) ∧ T !! y = Some (cy, py) ∧ cy <= c)).
Proof.
  intros Hinv Htr. induction Htr as [|u l c edges w v Htr IH Hadj Hin]; real_ops.
  - exists start, []. split; [done|].
    destruct (decide (start ∈ S)) as [HS|HS].
    + left. split; [done|]. exists 0, None. split; [apply (inv_start Hinv)|lra].
    + right. exists start, 0, None. split_and!; [done|apply (inv_start Hinv)|lra].
  - exists v, (u :: l). split; [done|].
    assert (ok u) as Hu by (eapply trail_ok; [done|by left]).
    destruct (region_edge _ _ _ _ Hu Hadj Hin) as [Hw _].
    destruct IH as (u' & l' & Heq & [(HuS & cu & pu & HTu & Hle)|(y & cy & py & HyS & HTy & Hle)]).
    + simplify_eq.
      destruct (inv_relaxed Hinv _ HuS) as (cu' & pu' & lu & HTu' & Hadj' & Hrel).
      rewrite Hadj in Hadj'. simplify_eq.
      destruct (Hrel _ _ Hin) as (cv & pv & HTv & Hle').
      destruct (decide (v ∈ S)) as [HvS|HvS].
      * left. split; [done|]. exists cv, pv. split; [done|lra].
      * right. exists v, cv, pv. split_and!; [done..|lra].
    + right. exists y, cy, py. split_and!; [done..|lra].
Qed.

(** The cell popped for the first time is tracked at the popped cost, and
    no path from the start reaches it more cheaply. *)
Lemma pop_settles T Q S c u Q' :
  search_inv adj graph start ok T Q S →
  heappop Q = Some ((c, u), Q') → u ∉ S →
  ∃ pu, T !! u = Some (c, pu) ∧ ∀ l c', trail adj graph start (u :: l) c' → c <= c'.
Proof.
  intros Hinv Hpop HuS.
  assert ((c, u) ∈ Q) as Hin by (apply (heappop_elem _ _ _ _ Hpop); by left).
  destruct (inv_queue Hinv _ _ Hin) as (cu & pu & HTu & Hle).
  pose proof (inv_pending Hinv _ _ _ HTu HuS) as Hpend.
  pose proof (heappop_min _ _ _ _ Hpop _ _ Hpend) as Hmin.
  assert (cu = c) as -> by lra.
  exists pu. split; [done|]. intros l c' Htr.
  destruct (frontier _ _ _ _ _ Hinv Htr)
    as (v & l' & Heq & [(HvS & _)|(y & cy & py & HyS & HTy & Hle')]).
  - by simplify_eq.
  - pose proof (inv_pending Hinv _ _ _ HTy HyS) as Hpend'.
    pose proof (heappop_min _ _ _ _ Hpop _ _ Hpend'). lra.
Qed.

(** Popping a cell that was expanded before changes nothing. *)
Lemma expand_done T Q S c u Q' :
  search_inv adj graph start ok T Q S →
  heappop Q = Some ((c, u), Q') → u ∈ S →
  ∃ l, adj graph u = Returns l ∧ relax_all u l (T, Q') = Returns (T, Q') ∧
       search_inv adj graph start ok T Q' S.
Proof.
  intros Hinv Hpop HuS.
  destruct (inv_relaxed Hinv u HuS) as (cu & pu & l & HTu & Hadj & Hrel).
  exists l. split_and!; [done|by eapply relax_all_noop|].
  split; try apply Hinv.
  - intros c' v Hin. apply (inv_queue Hinv). apply (heappop_elem _ _ _ _ Hpop). by right.
  - intros v cv pv HTv HvS. pose proof (inv_pending Hinv _ _ _ HTv HvS) as Hp.
    apply (heappop_elem _ _ _ _ Hpop) in Hp as [Heq|Hp]; [|done].
    simplify_eq. contradiction.
Qed.

(** Expanding a cell for the first time. *)
Lemma expand_new T Q S c u Q' :
  search_inv adj graph start ok T Q S →
  heappop Q = Some ((c, u), Q') → u ∉ S →
  ∃ l T' Q'', adj graph u = Returns l ∧ relax_all u l (T, Q') = Returns (T', Q'') ∧
    search_inv adj graph start ok T' Q'' (S ∪ {[u]}) ∧
    (length Q'' ≤ length Q' + D)%nat.
Proof.
  intros Hinv Hpop HuS.
  destruct (pop_settles _ _ _ _ _ _ Hinv Hpop HuS) as (pu & HTu & Hfin).
  assert (ok u) as Hu by (by eapply (inv_ok Hinv)).
  destruct (Hregion u Hu) as (l & Hadj & Hlen & Hl).
  destruct (inv_chain Hinv _ _ _ HTu) as (lu & Hchu & Hndu & Htru & HluS).
  pose proof (trail_nonneg _ _ Htru) as Hc.
  destruct (relax_all_spec u c pu l T Q' HTu)
    as (T' & Q'' & Hret & HTu' & Hupd & Hrel & HQ & Hsrc & HlenQ & Hmono).
  { intros w Hin. destruct (Hl _ _ Hin). lra. }
  assert (∀ v w, (w, v) ∈ l → (∀ cv pv, T !! v = Some (cv, pv) → w + c < cv) →
            (v ∉ S) ∧ v ≠ u) as Hfresh.
  { intros v w Hin Hlt.
    pose proof (trail_step adj graph start u lu c l w v Htru Hadj Hin) as Htrv. real_ops.
    split.
    - intros HvS. destruct (inv_relaxed Hinv v HvS) as (cv & pv & lv & HTv & _).
      pose proof (inv_final Hinv _ _ _ _ _ HvS HTv Htrv). specialize (Hlt _ _ HTv). lra.
    - intros ->. specialize (Hlt _ _ HTu). specialize (Hfin _ _ Htrv). lra. }
  assert (∀ v, v ∈ S ∪ {[u]} → T' !! v = T !! v) as Hsame.
  { intros v Hv. destruct (Hupd v) as [?|(w & Hin & _ & _ & Hlt)]; [done|].
    destruct (Hfresh v w Hin Hlt) as [HvS Hvu].
    apply elem_of_union in Hv as [?|Hv%elem_of_singleton]; contradiction. }
  exists l, T', Q''. split_and!; [done|done| |lia].
  split.
  - destruct (Hupd start) as [->|(w & Hin & _ & _ & Hlt)]; [apply (inv_start Hinv)|].
    specialize (Hlt _ _ (inv_start Hinv)). destruct (Hl _ _ Hin). lra.
  - intros v x Hv. destruct (Hupd v) as [Heq|(w & Hin & _)].
    + rewrite Heq in Hv. by eapply (inv_ok Hinv).
    + by apply (Hl _ _ Hin).
  - intros v cv pv Hv. destruct (Hupd v) as [Heq|(w & Hin & Hv' & _ & Hlt)].
    + rewrite Heq in Hv.
      destruct (inv_chain Hinv _ _ _ Hv) as (lv & Hch & Hnd & Htr & HlvS).
      exists lv. split_and!; [|done|done|].
      * eapply chain_ext; [done|]. intros x Hx.
        apply elem_of_cons in Hx as [->|Hx]; [done|].
        apply Hsame, elem_of_union. left. by apply HlvS.
      * intros x Hx. apply elem_of_union. left. by apply HlvS.
    + rewrite Hv' in Hv. simplify_eq. destruct (Hfresh v w Hin Hlt) as [HvS Hvu].
      assert (∀ x, x ∈ u :: lu → x ∈ S ∪ {[u]}) as Hsub.
      { intros x Hx. apply elem_of_cons in Hx as [->|Hx];
          [apply elem_of_union; right; by apply elem_of_singleton|].
        apply elem_of_union. left. by apply HluS. }
      exists (u :: lu). split_and!.
      * eapply chain_step; [done|]. eapply chain_ext; [done|].
        intros x Hx. by apply Hsame, Hsub.
      * apply NoDup_cons. split; [|done]. intros Hx.
        apply elem_of_cons in Hx as [?|Hx]; [done|]. by apply HvS, HluS.
      * exact (trail_step adj graph start u lu c l w v Htru Hadj Hin).
      * done.
  - intros c' v Hin. destruct (Hsrc _ _ Hin) as [HinQ'|(w & _ & _ & cv & pv & ? & ?)];
      [|by exists cv, pv].
    assert ((c', v) ∈ Q) as HinQ by (apply (heappop_elem _ _ _ _ Hpop); by right).
    destruct (inv_queue Hinv _ _ HinQ) as (c0 & p0 & HT0 & Hle).
    destruct (Hmono _ _ _ HT0) as (c1 & p1 & HT1 & Hle1).
    exists c1, p1. split; [done|lra].
  - intros v cv pv Hv HvS'. apply not_elem_of_union in HvS' as [HvS Hvu].
    apply not_elem_of_singleton in Hvu.
    destruct (Hupd v) as [Heq|(w & Hin & Hv' & HinQ & _)].
    + rewrite Heq in Hv. pose proof (inv_pending Hinv _ _ _ Hv HvS) as Hp.
      apply (heappop_elem _ _ _ _ Hpop) in Hp as [Heq'|Hp]; [by simplify_eq|].
      by apply HQ.
    + rewrite Hv' in Hv. by simplify_eq.
  - intros x Hx. apply elem_of_union in Hx as [HxS|Hx].
    + destruct (inv_relaxed Hinv x HxS) as (cx & px & lx & HTx & Hadjx & Hrelx).
      exists cx, px, lx. split_and!; [|done|].
      * rewrite Hsame; [done|]. apply elem_of_union. by left.
      * intros w v Hin. destruct (Hrelx _ _ Hin) as (cv & pv & HTv & Hle).
        destruct (Hmono _ _ _ HTv) as (cv' & pv' & ? & ?).
        exists cv', pv'. split; [done|lra].
    + apply elem_of_singleton in Hx as ->. by exists c, pu, l.
  - intros x cx px lx c' Hx HTx Htr. rewrite Hsame in HTx by done.
    apply elem_of_union in Hx as [HxS|Hx].
    + by eapply (inv_final Hinv).
    + apply elem_of_singleton in Hx as ->. simplify_eq. by eapply Hfin.
Qed.

Lemma measure_step S u Q Q' Q'' :
  u ∈ V → u ∉ S →
  length Q = Datatypes.S (length Q') → (length Q'' ≤ length Q' + D)%nat →
  (loop_measure V D Q'' (S ∪ {[u]}) < loop_measure V D Q S)%nat.
Proof.
  intros HuV HuS HQ HQ''. unfold loop_measure.
  rewrite (size_difference_step V S u HuV HuS). lia.
Qed.

(** One iteration keeps the invariant and lowers the variant. *)
Lemma expand_step T Q S c u Q' :
  search_inv adj graph start ok T Q S →
  heappop Q = Some ((c, u), Q') →
  ∃ l T' Q'', adj graph u = Returns l ∧ relax_all u l (T, Q') = Returns (T', Q'') ∧
    search_inv adj graph start ok T' Q'' (S ∪ {[u]}) ∧
    (loop_measure V D Q'' (S ∪ {[u]}) < loop_measure V D Q S)%nat.
Proof.
  intros Hinv Hpop. pose proof (heappop_length _ _ _ Hpop) as HlenQ.
  destruct (decide (u ∈ S)) as [HuS|HuS].
  - destruct (expand_done _ _ _ _ _ _ Hinv Hpop HuS) as (l & Hadj & Hret & Hinv').
    assert (S ∪ {[u]} = S) as ->.
    { apply set_eq. intros x. rewrite elem_of_union, elem_of_singleton.
      split; [intros [?| ->]; done|by left]. }
    exists l, T, Q'. split_and!; [done..|]. unfold loop_measure. lia.
  - destruct (expand_new _ _ _ _ _ _ Hinv Hpop HuS) as (l & T' & Q'' & Hadj & Hret & Hinv' & Hlen).
    exists l, T', Q''. split_and!; [done..|].
    apply measure_step with Q'; [|done..].
    destruct (pop_settles _ _ _ _ _ _ Hinv Hpop HuS) as (pu & HTu & _).
    by eapply HV, (inv_ok Hinv).
Qed.

Lemma chain_length T Q S v c p :
  search_inv adj graph start ok T Q S → T !! v = Some (c, p) →
  ∃ l, chain T (v :: l) ∧ trail adj graph start (v :: l) c ∧
       (length (v :: l) ≤ size V)%nat.
Proof.
  intros Hinv HTv. destruct (inv_chain Hinv _ _ _ HTv) as (lv & Hch & Hnd & Htr & _).
  exists lv. split_and!; [done..|].
  unfold size, set_size. change (length (v :: lv) ≤ length (elements V))%nat.
  apply submseteq_length, NoDup_submseteq; [done|].
  intros x Hx. apply elem_of_elements, HV. by eapply trail_ok.
Qed.

(** The search loop from a state that satisfies the invariant: it returns
    the predecessor chain of the destination, which is a cheapest path, or
    [None] when no path reaches the destination. *)
Lemma search_loop_spec fuel pfuel dest T Q S :
  search_inv adj graph start ok T Q S → dest ∉ S →
  (loop_measure V D Q S < fuel)%nat → (size V ≤ pfuel)%nat →
  (∃ l c, search_loop adj graph fuel pfuel dest T Q = Returns (Some (dest :: l)) ∧
          trail adj graph start (dest :: l) c ∧
          ∀ l' c', trail adj graph start (dest :: l') c' → c <= c') ∨
  (search_loop adj graph fuel pfuel dest T Q = Returns None ∧
   ¬ reachable adj graph start dest).
Proof.
  revert T Q S. induction fuel as [|fuel IH]; intros T Q S Hinv Hdest Hfuel Hpfuel; [lia|].
  simpl. destruct (heappop Q) as [[[c u] Q']|] eqn:Hpop.
  - destruct (decide (u = dest)) as [->|Hne].
    + left. destruct (pop_settles _ _ _ _ _ _ Hinv Hpop Hdest) as (pu & HTu & Hfin).
      destruct (chain_length _ _ _ _ _ _ Hinv HTu) as (l & Hch & Htr & Hlen).
      exists l, c. split_and!; [|done..].
      rewrite (build_path_chain pfuel T dest l []); [done|done|lia].
    + destruct (expand_step _ _ _ _ _ _ Hinv Hpop) as (l & T' & Q'' & Hadj & Hret & Hinv' & Hlt).
      rewrite Hadj. simpl. rewrite Hret. simpl.
      apply (IH T' Q'' (S ∪ {[u]})); [done| |lia|done].
      intros Hin. apply elem_of_union in Hin as [?|Hin%elem_of_singleton]; congruence.
  - right. split; [done|]. apply heappop_nil in Hpop. subst Q.
    intros (l & c & Htr).
    destruct (frontier _ _ _ _ _ Hinv Htr)
      as (v & l' & Heq & [(HvS & _)|(y & cy & py & HyS & HTy & _)]).
    + by simplify_eq.
    + pose proof (inv_pending Hinv _ _ _ HTy HyS) as Hp. by apply elem_of_nil in Hp.
Qed.

(** The cost-only loop ends in a state that satisfies the invariant with an
    empty queue. *)
Lemma to_all_loop_spec fuel T Q S :
  search_inv adj graph start ok T Q S →
  (loop_measure V D Q S < fuel)%nat →
  ∃ T' S', to_all_loop adj graph fuel (fst <$> T) Q = Returns (fst <$> T') ∧
           search_inv adj graph start ok T' [] S'.
Proof.
  revert T Q S. induction fuel as [|fuel IH]; intros T Q S Hinv Hfuel; [lia|].
  simpl. destruct (heappop Q) as [[[c u] Q']|] eqn:Hpop.
  - destruct (expand_step _ _ _ _ _ _ Hinv Hpop) as (l & T' & Q'' & Hadj & Hret & Hinv' & Hlt).
    rewrite Hadj. simpl. rewrite relax_cost_all_sim, Hret. simpl.
    apply (IH T' Q'' (S ∪ {[u]})); [done|lia].
  - apply heappop_nil in Hpop. subst Q. by exists T, S.
Qed.

(** At the end every tracked cell is expanded. *)
Lemma search_inv_end T S v c p :
  search_inv adj graph start ok T [] S → T !! v = Some (c, p) → v ∈ S.
Proof.
  intros Hinv HTv. destruct (decide (v ∈ S)) as [|HvS]; [done|].
  pose proof (inv_pending Hinv _ _ _ HTv HvS) as Hp. by apply elem_of_nil in Hp.
Qed.

(** Fuel that suffices, from the initial state. *)
Lemma search_spec fuel dest :
  (1 + D * size V < fuel)%nat → (size V ≤ fuel)%nat →
  (∃ l c, dijkstras_shortest_path fuel start dest graph adj = Returns (Some (dest :: l)) ∧
          trail adj graph start (dest :: l) c ∧
          ∀ l' c', trail adj graph start (dest :: l') c' → c <= c') ∨
  (dijkstras_shortest_path fuel start dest graph adj = Returns None ∧
   ¬ reachable adj graph start dest).
Proof.
  intros Hfuel Hpfuel. unfold dijkstras_shortest_path.
  apply (search_loop_spec fuel fuel dest _ _ ∅); [apply search_inv_init| |..|done].
  - apply not_elem_of_empty.
  - unfold loop_measure. rewrite difference_empty_L. simpl. lia.
Qed.

Lemma to_all_spec fuel :
  (1 + D * size V < fuel)%nat →
  ∃ m, dijkstras_shortest_path_to_all fuel start graph adj = Returns m ∧
    m !! start = Some 0 ∧
    ∀ v c, m !! v = Some c ↔
      (∃ l, trail adj graph start (v :: l) c) ∧
      (∀ l' c', trail adj graph start (v :: l') c' → c <= c').
Proof.
  intros Hfuel. unfold dijkstras_shortest_path_to_all.
  destruct (to_all_loop_spec fuel (<[start := (0, None)]> ∅) [(0, start)] ∅)
    as (T' & S' & Hret & Hinv); [apply search_inv_init| |].
  { unfold loop_measure. rewrite difference_empty_L. simpl. lia. }
  exists (fst <$> T'). split_and!.
  - rewrite <- Hret. f_equal. by rewrite fmap_insert, fmap_empty.
  - by rewrite lookup_fmap, (inv_start Hinv).
  - intros v c. rewrite lookup_fmap. split.
    + intros Hv. destruct (T' !! v) as [[c' p]|] eqn:HTv; [|done]. simpl in Hv. simplify_eq.
      destruct (inv_chain Hinv _ _ _ HTv) as (l & _ & _ & Htr & _).
      split; [by exists l|]. intros l' c' Htr'.
      eapply (inv_final Hinv); [|done..]. by eapply search_inv_end.
    + intros [[l Htr] Hmin].
      destruct (frontier _ _ _ _ _ Hinv Htr)
        as (v' & l' & Heq & [(HvS & cv & pv & HTv & Hle)|(y & cy & py & HyS & HTy & _)]).
      * simplify_eq. rewrite HTv. simpl. f_equal.
        destruct (inv_chain Hinv _ _ _ HTv) as (lv & _ & _ & Htr' & _).
        specialize (Hmin _ _ Htr'). lra.
      * destruct HyS. by eapply search_inv_end.
Qed.

End Dijkstra.

(** ** navigation_edges on levels that are closed in by walls *)

Section Total.
Context {F : Type} `{Num F}.
Implicit Types (lvl : level F) (c : cell).

Lemma edges_loop_total lvl w pts acc :
  (∀ p d, (p, d) ∈ pts → p ∉ walls lvl → is_Some (weight lvl p)) →
  ∃ l, edges_loop lvl (Some w) pts acc = Returns l.
Proof.
  revert acc. induction pts as [|[point dist] pts IH]; intros acc Hall; simpl; [by eexists|].
  assert (∀ p d, (p, d) ∈ pts → p ∉ walls lvl → is_Some (weight lvl p)) as Hall'.
  { intros p d Hin. apply (Hall p d). by right. }
  destruct (decide (point ∈ walls lvl)) as [Hw|Hw]; [by apply IH|].
  destruct (Hall point dist ltac:(by left) Hw) as [pw ->]. by apply IH.
Qed.

Lemma navigation_edges_total lvl c :
  passable lvl c →
  (∀ n, n ∈ neighbours c → n ∈ walls lvl ∨ is_Some (weight lvl n)) →
  ∃ l, navigation_edges lvl c = Returns l.
Proof.
  intros [Hnw [w Hw]] Hclosed. unfold navigation_edges.
  rewrite decide_False by done. rewrite Hw. apply edges_loop_total.
  intros p d Hin Hpw. apply adj_points_neighbour in Hin.
  destruct (Hclosed p Hin); [contradiction|done].
Qed.

End Total.

Section Grid.
Local Open Scope R_scope.
Variable lvl : level R.
Variable start : cell.
Hypothesis Hwf : well_formed lvl.
Hypothesis Hstart : in_level lvl start.

Lemma sqrt2_pos : 0 < R_sqrt.sqrt 2.
Proof. apply sqrt_lt_R0. lra. Qed.

Lemma adj_points_pos (c p : cell) (d : R) : (p, d) ∈ adj_points c → 0 < d.
Proof.
  unfold adj_points, adj_offsets. simpl. pose proof sqrt2_pos as Hs.
  rewrite !elem_of_cons, elem_of_nil. intros Hin.
  repeat (destruct Hin as [Hin|Hin]; [simplify_eq; lra|]). done.
Qed.

Lemma weight_dom (c : cell) :
  is_Some (weight lvl c) → c ∈ dom (spaces lvl) ∪ dom (waypoints lvl).
Proof.
  unfold weight. intros Hc. apply elem_of_union. rewrite !elem_of_dom.
  destruct (spaces lvl !! c); [left; by eexists|by right].
Qed.

Lemma grid_ok_cells c : grid_ok lvl start c → c ∈ grid_cells lvl start.
Proof.
  intros [->|[_ Hc]]; apply elem_of_union; [left; by apply elem_of_singleton|right].
  by apply weight_dom.
Qed.

Lemma grid_cells_size :
  (size (grid_cells lvl start) ≤ 1 + size (spaces lvl) + size (waypoints lvl))%nat.
Proof.
  unfold grid_cells.
  pose proof (size_union_alt (C:=gset cell) {[start]} (dom (spaces lvl) ∪ dom (waypoints lvl))) as H1.
  pose proof (size_union_alt (C:=gset cell) (dom (spaces lvl)) (dom (waypoints lvl))) as H2.
  assert (size ((dom (spaces lvl) ∪ dom (waypoints lvl)) ∖ ({[start]} : gset cell))
          ≤ size (dom (spaces lvl) ∪ dom (waypoints lvl)))%nat as H3.
  { apply subseteq_size. intros x Hx. by apply elem_of_difference in Hx as [? _]. }
  assert (size (dom (waypoints lvl) ∖ dom (spaces lvl)) ≤ size (dom (waypoints lvl)))%nat as H4.
  { apply subseteq_size. intros x Hx. by apply elem_of_difference in Hx as [? _]. }
  rewrite (size_singleton (C:=gset cell)) in H1. rewrite !size_dom in *. lia.
Qed.

Lemma grid_region : region navigation_edges lvl (grid_ok lvl start) 8.
Proof.
  destruct Hwf as [Hpos Hclosed]. intros u Hu.
  destruct (decide (u ∈ walls lvl)) as [Hw|Hw].
  - exists []. rewrite navigation_edges_wall by done. split_and!; [done|simpl; lia|].
    intros w v Hin. by apply elem_of_nil in Hin.
  - assert (passable lvl u) as Hpu.
    { destruct Hu as [->|?]; [|done]. by destruct Hstart. }
    destruct (navigation_edges_total lvl u Hpu) as [l Hl];
      [intros n Hn; by apply (Hclosed u n)|].
    exists l. destruct (navigation_edges_returns _ _ _ Hl) as [Hlen Hedges].
    split_and!; [done..|]. intros w v Hin.
    destruct (Hedges _ _ Hin) as (_ & Hvw & _ & d & pw & w0 & Hd & Hpw & Hw0 & ->).
    real_ops. change (@nmul R Num_R) with Rmult. change (@ndiv R Num_R) with Rdiv.
    apply adj_points_pos in Hd. pose proof (Hpos _ _ Hpw). pose proof (Hpos _ _ Hw0).
    split.
    + apply Rlt_le, Rdiv_lt_0_compat; [|lra]. apply Rmult_lt_0_compat; lra.
    + right. split; [done|by eexists].
Qed.

Lemma grid_fuel fuel :
  (fuel_bound lvl ≤ fuel)%nat →
  (1 + 8 * size (grid_cells lvl start) < fuel)%nat ∧ (size (grid_cells lvl start) ≤ fuel)%nat.
Proof. unfold fuel_bound. pose proof grid_cells_size. lia. Qed.

End Grid.

(** ** Exact arithmetic: what a completed cost-only search tells

    No assumption on the sign of the costs here: when the loop of
    [dijkstras_shortest_path_to_all] ends, every tracked cell has been
    expanded at its final cost. *)

Section Completed.
Local Open Scope R_scope.
Context {G : Type}.
Variable adj : G → cell → result (list (R * cell)).
Variable graph : G.
Variable start : cell.
Hypothesis Hnoself : ∀ u l w v, adj graph u = Returns l → (w, v) ∈ l → v ≠ u.
Implicit Types (T : gmap cell (R * option cell)) (Q : list (R * cell)).

Lemma settled_init : settled adj graph (<[start := (0, None)]> ∅) [(0, start)].
Proof.
  split.
  - intros c v Hin. apply list_elem_of_singleton in Hin. simplify_eq.
    by rewrite lookup_insert_eq.
  - intros u cu pu Hu. apply lookup_insert_Some in Hu as [[<- ?]|[_ Hu]];
      [|by rewrite lookup_empty in Hu].
    simplify_eq. left. by left.
Qed.

Lemma settled_step T Q c u Q' l :
  settled adj graph T Q → heappop Q = Some ((c, u), Q') → adj graph u = Returns l →
  ∃ T' Q'', relax_all u l (T, Q') = Returns (T', Q'') ∧ settled adj graph T' Q'' ∧
            ∀ v, is_Some (T !! v) → is_Some (T' !! v).
Proof.
  intros [Hq Hs] Hpop Hadj.
  destruct (Hq c u) as [[cu pu] HTu]; [apply (heappop_elem _ _ _ _ Hpop); by left|].
  destruct (relax_all_spec u cu pu l T Q' HTu)
    as (T' & Q'' & Hret & HTu' & Hupd & Hrel & HQ & Hsrc & _ & Hmono).
  { intros w Hin. by destruct (Hnoself _ _ _ _ Hadj Hin). }
  assert (∀ v, is_Some (T !! v) → is_Some (T' !! v)) as Hdom.
  { intros v [[cv pv] Hv]. destruct (Hmono _ _ _ Hv) as (cv' & pv' & -> & _). by eexists. }
  exists T', Q''. split_and!; [done| |done]. split.
  - intros c' v Hin. destruct (Hsrc _ _ Hin) as [Hin'|(w & _ & _ & cv & pv & -> & _)];
      [|by eexists].
    apply Hdom, (Hq c'). apply (heappop_elem _ _ _ _ Hpop). by right.
  - intros x cx px HTx. destruct (decide (x = u)) as [->|Hne].
    + right. exists l. split; [done|]. by simplify_eq.
    + destruct (Hupd x) as [Heq|(w & Hin & HTx' & HinQ & _)].
      * rewrite Heq in HTx. destruct (Hs _ _ _ HTx) as [Hin|(lx & Hadjx & Hrelx)].
        -- left. apply HQ. apply (heappop_elem _ _ _ _ Hpop) in Hin as [?|?]; [|done].
           by simplify_eq.
        -- right. exists lx. split; [done|]. intros w v Hin.
           destruct (Hrelx _ _ Hin) as (cv & pv & HTv & Hle).
           destruct (Hmono _ _ _ HTv) as (cv' & pv' & HTv' & Hle').
           exists cv', pv'. split; [done|lra].
      * left. rewrite HTx' in HTx. by simplify_eq.
Qed.

Lemma settled_loop fuel T Q m :
  to_all_loop adj graph fuel (fst <$> T) Q = Returns m → settled adj graph T Q →
  ∃ T', m = fst <$> T' ∧ settled adj graph T' [] ∧
        ∀ v, is_Some (T !! v) → is_Some (T' !! v).
Proof.
  revert T Q. induction fuel as [|fuel IH]; intros T Q Hret Hs; simpl in Hret; [done|].
  destruct (heappop Q) as [[[c u] Q']|] eqn:Hpop.
  - apply bind_returns in Hret as (l & Hadj & Hret).
    apply bind_returns in Hret as ([M1 Q1] & Hrel & Hret).
    destruct (settled_step _ _ _ _ _ _ Hs Hpop Hadj) as (T1 & Q1' & Hrel' & Hs' & Hdom).
    rewrite relax_cost_all_sim, Hrel' in Hrel. simpl in Hrel. simplify_eq.
    destruct (IH _ _ Hret Hs') as (T' & -> & Hs'' & Hdom').
    exists T'. split_and!; [done..|]. intros v Hv. by apply Hdom', Hdom.
  - apply heappop_nil in Hpop. simplify_eq. by exists T.
Qed.

(** The returned mapping is closed under the edges and relaxed along
    each of them. *)
Lemma to_all_completed fuel m :
  dijkstras_shortest_path_to_all fuel start graph adj = Returns m →
  is_Some (m !! start) ∧
  ∀ u cu, m !! u = Some cu →
    ∃ l, adj graph u = Returns l ∧
         ∀ w v, (w, v) ∈ l → ∃ cv, m !! v = Some cv ∧ cv <= w + cu.
Proof.
  unfold dijkstras_shortest_path_to_all. intros Hret.
  destruct (settled_loop fuel (<[start := (0, None)]> ∅) [(0, start)] m)
    as (T' & -> & [_ Hs] & Hdom); [|apply settled_init|].
  { rewrite <- Hret. f_equal. by rewrite fmap_insert, fmap_empty. }
  split.
  - rewrite lookup_fmap. apply fmap_is_Some, Hdom. by rewrite lookup_insert_eq.
  - intros u cu Hu. rewrite lookup_fmap in Hu.
    destruct (T' !! u) as [[cu' pu]|] eqn:HTu; [|done]. simpl in Hu. simplify_eq.
    destruct (Hs _ _ _ HTu) as [Hin|(l & Hadj & Hrel)]; [by apply elem_of_nil in Hin|].
    exists l. split; [done|]. intros w v Hin.
    destruct (Hrel _ _ Hin) as (cv & pv & HTv & Hle).
    exists cv. rewrite lookup_fmap, HTv. done.
Qed.

(** With costs that are the same in both directions, the edges between
    tracked cells have non-negative cost. *)
Hypothesis Hsym : ∀ u v w lu lv,
  adj graph u = Returns lu → (w, v) ∈ lu → adj graph v = Returns lv → (w, u) ∈ lv.
Variable D : nat.
Hypothesis Hdeg : ∀ u l, adj graph u = Returns l → (length l ≤ D)%nat.

Lemma to_all_region fuel m :
  dijkstras_shortest_path_to_all fuel start graph adj = Returns m →
  region adj graph (λ v, is_Some (m !! v)) D.
Proof.
  intros Hret. destruct (to_all_completed _ _ Hret) as [_ Hdone].
  intros u [cu Hu]. destruct (Hdone _ _ Hu) as (l & Hadj & Hrel).
  exists l. split_and!; [done|by eapply Hdeg|].
  intros w v Hin. destruct (Hrel _ _ Hin) as (cv & Hv & Hle).
  split; [|by eexists].
  destruct (Hdone _ _ Hv) as (lv & Hadjv & Hrelv).
  destruct (Hrelv w u) as (cu' & Hu' & Hle'); [by eapply Hsym|].
  simplify_eq. lra.
Qed.

End Completed.

(** ** The eight offsets *)

Section Offsets.
Context {F : Type} `{Num F}.

Lemma adj_points_sym (c p : cell) (d : F) : (p, d) ∈ adj_points c → (c, d) ∈ adj_points p.
Proof.
  destruct c as [x y], p as [px py]. unfold adj_points, adj_offsets. simpl.
  rewrite !elem_of_cons, !elem_of_nil. intros Hin.
  repeat (destruct Hin as [Hin|Hin]; [simplify_eq; pick_offset|]). done.
Qed.

Lemma adj_points_ne (c p : cell) (d : F) : (p, d) ∈ adj_points c → p ≠ c.
Proof.
  destruct c as [x y], p as [px py]. unfold adj_points, adj_offsets. simpl.
  rewrite !elem_of_cons, !elem_of_nil. intros Hin.
  repeat (destruct Hin as [Hin|Hin]; [simplify_eq; intros ?; simplify_eq; lia|]). done.
Qed.

End Offsets.

Lemma adj_points_factor (c p : cell) (d : R) :
  (p, d) ∈ adj_points c → d = distance_factor c p.
Proof.
  destruct c as [x y], p as [px py]. unfold adj_points, adj_offsets, distance_factor. simpl.
  rewrite !elem_of_cons, !elem_of_nil. intros Hin.
  repeat (destruct Hin as [Hin|Hin];
    [simplify_eq; case_decide as Hd; [done || (exfalso; lia)|done || (exfalso; apply Hd; lia)]|]).
  done.
Qed.

(** ** Edges of navigation_edges *)

Section GridEdges.
Context {F : Type} `{Num F}.
Implicit Types (lvl : level F).

Lemma navigation_edges_noself lvl u l w v :
  navigation_edges lvl u = Returns l → (w, v) ∈ l → v ≠ u.
Proof.
  intros Hret Hin. destruct (navigation_edges_returns _ _ _ Hret) as [_ Hedges].
  destruct (Hedges _ _ Hin) as (_ & _ & _ & d & _ & _ & Hd & _).
  by eapply adj_points_ne.
Qed.

Lemma navigation_edges_degree lvl u l :
  navigation_edges lvl u = Returns l → (length l ≤ 8)%nat.
Proof. intros Hret. by destruct (navigation_edges_returns _ _ _ Hret). Qed.

(** A normal return has an edge to every neighbour that is not a wall. *)
Lemma navigation_edges_edge lvl a b d l :
  navigation_edges lvl a = Returns l → a ∉ walls lvl →
  (b, d) ∈ adj_points a → b ∉ walls lvl →
  ∃ wa wb, weight lvl a = Some wa ∧ weight lvl b = Some wb ∧
           (ndiv (nmul d (nadd wb wa)) (of_int 2), b) ∈ l.
Proof.
  unfold navigation_edges. intros Hret Ha Hd Hb. rewrite decide_False in Hret by done.
  apply edges_loop_returns in Hret as (_ & Hall & _).
  destruct (Hall _ _ Hd Hb) as (pw & w & Hpw & Hw & Hin). by exists w, pw.
Qed.

Lemma edges_loop_ends lvl weig pts acc : edges_loop lvl weig pts acc ≠ NoFuel.
Proof.
  revert acc. induction pts as [|[point dist] pts IH]; intros acc; simpl; [done|].
  destruct (decide (point ∈ walls lvl)); [done|].
  destruct (weight lvl point), weig; done.
Qed.

Lemma navigation_edges_ends lvl c : navigation_edges lvl c ≠ NoFuel.
Proof.
  unfold navigation_edges. destruct (decide (c ∈ walls lvl)); [done|].
  apply edges_loop_ends.
Qed.

(** A cell without weight has no edge in a normal return. *)
Lemma navigation_edges_unweighted lvl c l :
  navigation_edges lvl c = Returns l → weight lvl c = None → l = [].
Proof.
  intros Hret Hnone. destruct (navigation_edges_returns _ _ _ Hret) as [_ Hedges].
  destruct l as [|[cost p] l]; [done|].
  destruct (Hedges cost p ltac:(by left)) as (_ & _ & _ & d & pw & w & _ & _ & Hw & _).
  congruence.
Qed.

(** From a start without weight both searches end after one expansion. *)
Lemma unweighted_start_ends lvl start dest fuel :
  weight lvl start = None → (2 ≤ fuel)%nat →
  dijkstras_shortest_path fuel start dest lvl navigation_edges ≠ NoFuel ∧
  dijkstras_shortest_path_to_all fuel start lvl navigation_edges ≠ NoFuel.
Proof.
  intros Hnone Hfuel. destruct fuel as [|[|fuel]]; [lia..|].
  unfold dijkstras_shortest_path, dijkstras_shortest_path_to_all.
  cbn -[build_path navigation_edges relax_all relax_cost_all].
  pose proof (navigation_edges_ends lvl start) as Hends.
  destruct (navigation_edges lvl start) as [l| |] eqn:Hnav; [| |done].
  - rewrite (navigation_edges_unweighted _ _ _ Hnav Hnone).
    split; [|done]. case_decide; [|done]. cbn. by rewrite lookup_insert_eq.
  - split; [|done]. case_decide; [|done]. cbn. by rewrite lookup_insert_eq.
Qed.

End GridEdges.

Section GridReal.
Local Open Scope R_scope.
Implicit Types (lvl : level R).

Lemma navigation_edges_cost lvl a b l c :
  navigation_edges lvl a = Returns l → (c, b) ∈ l →
  ∃ wa wb, weight lvl a = Some wa ∧ weight lvl b = Some wb ∧
           c = distance_factor a b * (wa + wb) / 2.
Proof.
  intros Hret Hin. destruct (navigation_edges_returns _ _ _ Hret) as [_ Hedges].
  destruct (Hedges _ _ Hin) as (_ & _ & _ & d & pw & w & Hd & Hpw & Hw & ->).
  exists w, pw. split_and!; [done..|].
  rewrite (adj_points_factor _ _ _ Hd). simpl. by rewrite (Rplus_comm pw w).
Qed.

Lemma navigation_edges_sym lvl u v w lu lv :
  navigation_edges lvl u = Returns lu → (w, v) ∈ lu →
  navigation_edges lvl v = Returns lv → (w, u) ∈ lv.
Proof.
  intros Hu Hin Hv. destruct (navigation_edges_returns _ _ _ Hu) as [_ Hedges].
  destruct (Hedges _ _ Hin) as (Huw & Hvw & _ & d & pw & w0 & Hd & Hpw & Hw0 & ->).
  apply adj_points_sym in Hd.
  destruct (navigation_edges_edge _ _ _ _ _ Hv Hvw Hd Huw) as (wa & wb & Hwa & Hwb & Hin').
  simplify_eq. simpl in *. by rewrite (Rplus_comm pw w0).
Qed.

Lemma navigation_edges_cost_unique lvl a b l c1 c2 :
  navigation_edges lvl a = Returns l → (c1, b) ∈ l → (c2, b) ∈ l → c1 = c2.
Proof.
  intros Hret H1 H2.
  destruct (navigation_edges_cost _ _ _ _ _ Hret H1) as (wa & wb & Hwa & Hwb & ->).
  destruct (navigation_edges_cost _ _ _ _ _ Hret H2) as (wa' & wb' & Hwa' & Hwb' & ->).
  by simplify_eq.
Qed.

(** The cost of a path is determined by its cells. *)
Lemma trail_cost_unique lvl start p c c' :
  trail navigation_edges lvl start p c → trail navigation_edges lvl start p c' → c = c'.
Proof.
  intros Htr. revert c'. induction Htr as [|u l c edges w v Htr IH Hadj Hin]; intros c' Htr'.
  - by inversion Htr'.
  - inversion Htr' as [|u' l' c0 edges' w' v' Htr0 Hadj' Hin']; simplify_eq.
    rewrite Hadj in Hadj'. simplify_eq. rewrite (IH _ Htr0). f_equal.
    exact (navigation_edges_cost_unique _ _ _ _ _ _ Hadj Hin Hin').
Qed.

(** A tracked cell other than the start was reached by an edge. *)
Lemma trail_not_wall lvl start v l c :
  trail navigation_edges lvl start (v :: l) c → v ≠ start → v ∉ walls lvl.
Proof.
  intros Htr Hne. inversion Htr as [|u l' c0 edges w v' Htr0 Hadj Hin]; simplify_eq.
  destruct (navigation_edges_returns _ _ _ Hadj) as [_ Hedges].
  by destruct (Hedges _ _ Hin) as (_ & ? & _).
Qed.

(** A path with an edge begins with an edge out of the start. *)
Lemma trail_first_edge lvl start l c :
  trail navigation_edges lvl start l c →
  (l = [start] ∧ c = 0) ∨ passable lvl start.
Proof.
  induction 1 as [|u l c edges w v Htr IH Hadj Hin]; [by left|]. right.
  destruct IH as [[Heq _]|?]; [|done]. simplify_eq.
  destruct (navigation_edges_returns _ _ _ Hadj) as [_ Hedges].
  destruct (Hedges _ _ Hin) as (Hw & _ & _ & d & pw & w0 & _ & _ & Hw0 & _).
  split; [done|by eexists].
Qed.

(** A completed cost-only search, on any level. *)
Lemma grid_completed_region lvl start fuel m :
  dijkstras_shortest_path_to_all fuel start lvl navigation_edges = Returns m →
  region navigation_edges lvl (λ v, is_Some (m !! v)) 8 ∧ is_Some (m !! start).
Proof.
  intros Hret. split.
  - eapply to_all_region; [|exact (navigation_edges_sym lvl)| |done].
    + intros u l w v. apply navigation_edges_noself.
    + intros u l. apply navigation_edges_degree.
  - eapply to_all_completed; [|done]. intros u l w v. apply navigation_edges_noself.
Qed.

Lemma grid_completed_to_all lvl start fuel m :
  dijkstras_shortest_path_to_all fuel start lvl navigation_edges = Returns m →
  m !! start = Some 0 ∧
  ∀ v c, m !! v = Some c ↔
    (∃ l, trail navigation_edges lvl start (v :: l) c) ∧
    (∀ l' c', trail navigation_edges lvl start (v :: l') c' → c <= c').
Proof.
  intros Hret. destruct (grid_completed_region _ _ _ _ Hret) as [Hreg Hs].
  destruct (to_all_spec navigation_edges lvl start _ (dom m) 8 Hreg
              ltac:(by intros v ?%elem_of_dom) Hs (fuel + (2 + 8 * size (dom m))))
    as (m' & Hret' & Hspec); [lia|].
  unfold dijkstras_shortest_path_to_all in *.
  rewrite (to_all_loop_fuel_mono _ _ _ _ _ _ _ Hret) in Hret' by lia.
  by simplify_eq.
Qed.

Lemma grid_completed_search lvl start fuel m dest fuel' :
  dijkstras_shortest_path_to_all fuel start lvl navigation_edges = Returns m →
  (8 * size m + 2 ≤ fuel')%nat →
  (∃ l c, dijkstras_shortest_path fuel' start dest lvl navigation_edges
            = Returns (Some (dest :: l)) ∧
          trail navigation_edges lvl start (dest :: l) c ∧
          ∀ l' c', trail navigation_edges lvl start (dest :: l') c' → c <= c') ∨
  (dijkstras_shortest_path fuel' start dest lvl navigation_edges = Returns None ∧
   ¬ reachable navigation_edges lvl start dest).
Proof.
  intros Hret Hfuel. destruct (grid_completed_region _ _ _ _ Hret) as [Hreg Hs].
  apply (search_spec navigation_edges lvl start _ (dom m) 8 Hreg
           ltac:(by intros v ?%elem_of_dom) Hs); rewrite size_dom; lia.
Qed.

(** The search on a well-formed level. *)
Lemma grid_search lvl start dest fuel :
  well_formed lvl → in_level lvl start → (fuel_bound lvl ≤ fuel)%nat →
  (∃ l c, dijkstras_shortest_path fuel start dest lvl navigation_edges
            = Returns (Some (dest :: l)) ∧
          trail navigation_edges lvl start (dest :: l) c ∧
          ∀ l' c', trail navigation_edges lvl start (dest :: l') c' → c <= c') ∨
  (dijkstras_shortest_path fuel start dest lvl navigation_edges = Returns None ∧
   ¬ reachable navigation_edges lvl start dest).
Proof.
  intros Hwf Hstart Hfuel. destruct (grid_fuel lvl start fuel Hfuel).
  apply (search_spec navigation_edges lvl start (grid_ok lvl start) (grid_cells lvl start) 8);
    [by apply grid_region|apply grid_ok_cells|by left|done..].
Qed.

Lemma grid_to_all lvl start fuel :
  well_formed lvl → in_level lvl start → (fuel_bound lvl ≤ fuel)%nat →
  ∃ m, dijkstras_shortest_path_to_all fuel start lvl navigation_edges = Returns m.
Proof.
  intros Hwf Hstart Hfuel. destruct (grid_fuel lvl start fuel Hfuel).
  destruct (to_all_spec navigation_edges lvl start (grid_ok lvl start)
              (grid_cells lvl start) 8) with (fuel := fuel) as (m & Hret & _);
    [by apply grid_region|apply grid_ok_cells|by left|done|by exists m].
Qed.

End GridReal.

(** ** Checking that a level is well formed *)

Section WellFormed.
Local Open Scope R_scope.
Implicit Types (lvl : level R).

Lemma weighted_cells_weight {F} (l : level F) (c : cell) :
  c ∈ weighted_cells l ↔ is_Some (weight l c).
Proof.
  unfold weighted_cells, weight. rewrite elem_of_union, !elem_of_dom.
  destruct (spaces l !! c) as [w|]; split.
  - by eexists.
  - by left.
  - by intros [[? [=]]|?].
  - by right.
Qed.

Lemma well_formed_intro lvl :
  map_Forall (λ _ w, 0 < w) (spaces lvl) →
  map_Forall (λ _ w, 0 < w) (waypoints lvl) →
  closed_in lvl → well_formed lvl.
Proof.
  intros Hs Hw Hc. split.
  - intros c w. unfold weight. destruct (spaces lvl !! c) as [w'|] eqn:Hsc.
    + intros [= <-]. by apply (Hs c).
    + apply (Hw c).
  - intros c n [Hnw Hc'] Hn. apply weighted_cells_weight in Hc'.
    destruct (Hc c Hc') as [?|Hall]; [contradiction|].
    rewrite Forall_forall in Hall. destruct (Hall n Hn) as [?|?]; [by left|right].
    by apply weighted_cells_weight.
Qed.

End WellFormed.

(** ** Runs on IEEE floats

    The 3x3 grid of weight 1 inside a border of walls, evaluated as
    CPython evaluates it. *)

Example walled3_corner_edges :
  navigation_edges walled3 (0, 0)%Z
  = Returns [ (1%float, (1, 0)%Z); (1%float, (0, 1)%Z);
              (0x1.6a09e667f3bcdp+0%float, (1, 1)%Z) ].   (* 1.4142135623730951 *)
Proof. vm_compute. reflexivity. Qed.

Example walled3_costs :
  (m ← dijkstras_shortest_path_to_all 30 (0, 0)%Z walled3 navigation_edges;
   Returns (m !! (0, 0)%Z, m !! (2, 1)%Z, m !! (2, 2)%Z, m !! (3, 3)%Z, size m))
  = Returns (Some 0%float,
             Some 0x1.3504f333f9de6p+1%float,   (* 2.414213562373095 *)
             Some 0x1.6a09e667f3bcdp+1%float,   (* 2.8284271247461903 *)
             None, 9%nat).
Proof. vm_compute. reflexivity. Qed.

Example walled3_pops :
  search_pops 30 (0, 0)%Z (2, 2)%Z walled3 navigation_edges
  = [ (0, 0); (0, 1); (1, 0); (1, 1); (0, 2); (2, 0); (1, 2); (2, 1); (2, 2) ]%Z.
Proof. vm_compute. reflexivity. Qed.

(** ** The cost search on [corridor], step by step *)

Section CorridorRuns.
Local Open Scope R_scope.

Lemma to_all_loop_step (fuel : nat) (M : gmap cell R) (Q : list (R * cell)) :
  to_all_loop navigation_edges corridor (S fuel) M Q =
  match heappop Q with
  | None => Returns M
  | Some ((currCost, currNode), queue') =>
      edges ← navigation_edges corridor currNode ;
      st ← relax_cost_all currNode edges (M, queue') ;
      to_all_loop navigation_edges corridor fuel st.1 st.2
  end.
Proof. reflexivity. Qed.

Lemma corridor_costs_from_space :
  dijkstras_shortest_path_to_all 26 (0, 0)%Z corridor navigation_edges
  = Returns corridor_costs.
Proof.
  unfold dijkstras_shortest_path_to_all. rewrite to_all_loop_step.
  change (heappop [(of_int 0, (0, 0)%Z)]) with (Some ((0 : R, (0, 0)%Z), @nil (R * cell))).
  cbv beta iota.
  change (navigation_edges corridor (0, 0)%Z) with (Returns [(1 * (2 + 1) / 2, (1, 0)%Z)]).
  change (Returns [(1 * (2 + 1) / 2, (1, 0)%Z)] ≫= ?k) with (k [(1 * (2 + 1) / 2, (1, 0)%Z)]).
  cbv beta.
  change (relax_cost_all (0, 0)%Z [(1 * (2 + 1) / 2, (1, 0)%Z)]
            (<[(0, 0)%Z := of_int 0]> ∅, []))
    with (Returns (corridor_costs, [(1 * (2 + 1) / 2 + 0, (1, 0)%Z)])).
  change (Returns (corridor_costs, [(1 * (2 + 1) / 2 + 0, (1, 0)%Z)]) ≫= ?k)
    with (k (corridor_costs, [(1 * (2 + 1) / 2 + 0, (1, 0)%Z)])).
  cbv beta. change ((?a, ?b).1) with a. change ((?a, ?b).2) with b.
  rewrite to_all_loop_step.
  change (heappop [(1 * (2 + 1) / 2 + 0, (1, 0)%Z)])
    with (Some ((1 * (2 + 1) / 2 + 0, (1, 0)%Z), @nil (R * cell))).
  cbv beta iota.
  change (navigation_edges corridor (1, 0)%Z) with (Returns [(1 * (1 + 2) / 2, (0, 0)%Z)]).
  change (Returns [(1 * (1 + 2) / 2, (0, 0)%Z)] ≫= ?k) with (k [(1 * (1 + 2) / 2, (0, 0)%Z)]).
  cbv beta.
  assert (relax_cost_all (1, 0)%Z [(1 * (1 + 2) / 2, (0, 0)%Z)] (corridor_costs, [])
          = Returns (corridor_costs, [])) as ->.
  { unfold relax_cost_all, relax_cost.
    change (corridor_costs !! (1, 0)%Z) with (Some (1 * (2 + 1) / 2 + 0)).
    change (corridor_costs !! (0, 0)%Z) with (Some (0 : R)).
    cbv beta iota. real_ops. rewrite (proj2 (Rltb_false _ _)) by lra. reflexivity. }
  reflexivity.
Qed.

End CorridorRuns.

(** * The claims of the specification *)

Section Claims.
Local Open Scope R_scope.

(** C1.  On a well-formed level (positive weights, every neighbour of a
    passable cell a wall or weighted), when the destination is reachable
    from the start, the search returns (given [fuel_bound] iterations or
    more) a path to the destination whose summed edge cost is minimal: no
    path from the start to the destination costs strictly less.  The
    returned list holds the destination first; [trail] reads it from its
    last cell. *)
Theorem shortest_path_is_minimal (lvl : level R) (start dest : cell) (fuel : nat) :
  well_formed lvl →
  reachable navigation_edges lvl start dest →
  (fuel_bound lvl ≤ fuel)%nat →
  ∃ p c,
    dijkstras_shortest_path fuel start dest lvl navigation_edges = Returns (Some p) ∧
    head p = Some dest ∧
    trail navigation_edges lvl start p c ∧
    ∀ q c', trail navigation_edges lvl start (dest :: q) c' → ¬ c' < c.
Proof.
  intros Hwf (l0 & c0 & Hreach) Hfuel.
  destruct (trail_first_edge _ _ _ _ Hreach) as [[[= -> ->] _]|Hpass].
  - (* the start is the destination and has no edge *)
    destruct fuel as [|fuel]; [unfold fuel_bound in Hfuel; lia|].
    exists [start], 0. split_and!.
    + apply search_start_is_destination.
    + done.
    + exact (trail_start navigation_edges lvl start).
    + intros q c' Hq. destruct (trail_first_edge _ _ _ _ Hq) as [[_ ->]|Hpass]; [lra|].
      assert (in_level lvl start) as Hin by (right; apply Hpass).
      destruct (grid_search lvl start start (S fuel) Hwf Hin Hfuel)
        as [(l & c & Hret & Htr & Hmin)|[_ Hno]].
      * rewrite search_start_is_destination in Hret.
        simplify_eq. inversion Htr; simplify_eq. real_ops.
        specialize (Hmin _ _ Hq). lra.
      * destruct Hno. exists [], 0. exact (trail_start navigation_edges lvl start).
  - assert (in_level lvl start) as Hstart by (right; apply Hpass).
    destruct (grid_search lvl start dest fuel Hwf Hstart Hfuel)
      as [(l & c & Hret & Htr & Hmin)|[_ Hno]].
    + exists (dest :: l), c. split_and!; [done..|].
      intros q c' Hq. specialize (Hmin _ _ Hq). lra.
    + destruct Hno. by exists l0, c0.
Qed.

Lemma corridor_well_formed : well_formed corridor.
Proof.
  apply well_formed_intro; [apply map_Forall_singleton; lra..|].
  apply (bool_decide_unpack _). vm_compute. exact I.
Defined.

Lemma shortest_path_is_minimal_witness :
  ∃ p c,
    dijkstras_shortest_path 26 (0, 0)%Z (1, 0)%Z corridor navigation_edges
      = Returns (Some p) ∧
    head p = Some (1, 0)%Z ∧
    trail navigation_edges corridor (0, 0)%Z p c ∧
    ∀ q c', trail navigation_edges corridor (0, 0)%Z ((1, 0)%Z :: q) c' → ¬ c' < c.
Proof.
  apply shortest_path_is_minimal.
  - exact corridor_well_formed.
  - eexists [(0, 0)%Z], _.
    eapply trail_step; [apply trail_start|reflexivity|left].
  - vm_compute. lia.
Defined.

(** C2, what the code does.  The docstring of [dijkstras_shortest_path]
    promises the cells from [initial_position] to [destination]; the list
    a successful search returns runs the other way: its first element is
    the destination and its last element is the start, since the cells
    are appended while the predecessor links are followed and the list is
    returned as collected.  For the 3x3 grid of weight 1 with a border of
    walls, start (0,0) and destination (2,2), the returned list is
    [(2,2); (1,1); (0,0)]. *)
Theorem path_runs_from_destination_to_start {F : Type} `{Num F} {G : Type}
    (adj : G → cell → result (list (F * cell))) (graph : G)
    (fuel : nat) (start dest : cell) (p : list cell) :
  dijkstras_shortest_path fuel start dest graph adj = Returns (Some p) →
  head p = Some dest ∧ last p = Some start ∧
  dijkstras_shortest_path 30 (0, 0)%Z (2, 2)%Z walled3 navigation_edges
    = Returns (Some [(2, 2); (1, 1); (0, 0)]%Z).
Proof.
  intros Hret. unfold dijkstras_shortest_path in Hret.
  destruct (search_loop_ends adj graph start _ _ _ _ _ _ Hret) as [Hh Hl];
    [apply rooted_init|].
  split_and!; [done..|]. vm_compute. reflexivity.
Qed.

Lemma path_runs_from_destination_to_start_witness :
  head [(2, 1); (1, 0); (0, 0)]%Z = Some (2, 1)%Z ∧
  last [(2, 1); (1, 0); (0, 0)]%Z = Some (0, 0)%Z ∧
  dijkstras_shortest_path 30 (0, 0)%Z (2, 2)%Z walled3 navigation_edges
    = Returns (Some [(2, 2); (1, 1); (0, 0)]%Z).
Proof.
  apply (path_runs_from_destination_to_start
           navigation_edges walled3 30 (0, 0)%Z (2, 1)%Z).
  vm_compute. reflexivity.
Defined.

(** C2 at a concrete input: on the walled 3x3 grid the search returns the
    path destination first, not [(0,0); (1,1); (2,2)]; and on the grid
    without any wall the first expansion looks up a cell outside the grid
    and raises. *)
Lemma path_order_counterexample :
  dijkstras_shortest_path 30 (0, 0)%Z (2, 2)%Z walled3 navigation_edges
    = Returns (Some [(2, 2); (1, 1); (0, 0)]%Z) ∧
  dijkstras_shortest_path 30 (0, 0)%Z (2, 2)%Z walled3 navigation_edges
    ≠ Returns (Some [(0, 0); (1, 1); (2, 2)]%Z) ∧
  dijkstras_shortest_path 30 (0, 0)%Z (2, 2)%Z open3 navigation_edges
    = Raises TypeError.
Proof.
  split_and!.
  - vm_compute. reflexivity.
  - vm_compute. intros [=].
  - vm_compute. reflexivity.
Qed.

(** C3 (as the code has it).  Whenever the cost search returns a mapping,
    on any level: no key of the mapping other than the start itself is a
    wall (the start is always a key, wall or not), and for every cell of
    the mapping the path search from the same start returns a path whose
    total cost is the stored cost. *)
Theorem costs_agree_with_paths (lvl : level R) (start : cell) (fuel : nat)
    (m : gmap cell R) :
  dijkstras_shortest_path_to_all fuel start lvl navigation_edges = Returns m →
  (∀ c, is_Some (m !! c) → c ≠ start → c ∉ walls lvl) ∧
  (∀ c cost, m !! c = Some cost →
     ∃ p,
       (∀ fuel', (8 * size m + 2 ≤ fuel')%nat →
          dijkstras_shortest_path fuel' start c lvl navigation_edges = Returns (Some p)) ∧
       trail navigation_edges lvl start p cost ∧
       ∀ cost', trail navigation_edges lvl start p cost' → cost' = cost).
Proof.
  intros Hret. destruct (grid_completed_to_all _ _ _ _ Hret) as [_ Hspec]. split.
  - intros c [cost Hc] Hne. apply Hspec in Hc as [[l Htr] _].
    by eapply trail_not_wall.
  - intros c cost Hc. apply Hspec in Hc as [[l Htr] Hmin].
    destruct (grid_completed_search lvl start fuel m c (8 * size m + 2) Hret)
      as [(l' & c0 & Hsearch & Htr' & Hmin')|[_ Hno]]; [done| |].
    + assert (c0 = cost) as -> by (specialize (Hmin _ _ Htr'); specialize (Hmin' _ _ Htr); lra).
      exists (c :: l'). split_and!; [|done|].
      * intros fuel' Hfuel'. unfold dijkstras_shortest_path in *.
        by apply (search_loop_fuel_mono _ _ _ _ _ _ _ _ _ _ Hsearch).
      * intros cost' Htr''. by eapply trail_cost_unique.
    + destruct Hno. by exists l, cost.
Qed.

Lemma costs_agree_with_paths_witness :
  (∀ c, is_Some (corridor_costs !! c) → c ≠ (0, 0)%Z → c ∉ walls corridor) ∧
  (∀ c cost, corridor_costs !! c = Some cost →
     ∃ p,
       (∀ fuel', (8 * size corridor_costs + 2 ≤ fuel')%nat →
          dijkstras_shortest_path fuel' (0, 0)%Z c corridor navigation_edges
            = Returns (Some p)) ∧
       trail navigation_edges corridor (0, 0)%Z p cost ∧
       ∀ cost', trail navigation_edges corridor (0, 0)%Z p cost' → cost' = cost).
Proof.
  exact (costs_agree_with_paths corridor (0, 0)%Z 26 corridor_costs
           corridor_costs_from_space).
Defined.

(** C3 as stated fails when the start is a wall: the start is a key of the
    returned mapping. *)
Lemma costs_wall_start_counterexample :
  ∃ m, dijkstras_shortest_path_to_all 5 (0, 0)%Z lone_wall_real navigation_edges
         = Returns m ∧
       ¬ (∀ c, is_Some (m !! c) → c ∉ walls lone_wall_real).
Proof.
  exists {[ (0, 0)%Z := 0 ]}. split; [reflexivity|].
  intros Hall. apply (Hall (0, 0)%Z).
  - rewrite lookup_singleton_eq. by eexists.
  - by apply elem_of_singleton.
Qed.

(** C4.  With the start as destination the search returns the one-element
    path [[s]], whose cost is 0, on any graph and for any adjacency
    function: the start, tracked at cost 0, is the first and only cell
    popped. *)
Theorem start_is_destination {F : Type} `{Num F} {G : Type}
    (adj : G → cell → result (list (F * cell))) (graph : G) (s : cell) (fuel : nat) :
  dijkstras_shortest_path (S fuel) s s graph adj = Returns (Some [s]) ∧
  trail adj graph s [s] (of_int 0) ∧
  search_pops (S fuel) s s graph adj = [s].
Proof.
  split_and!; [apply search_start_is_destination|apply trail_start|].
  unfold search_pops. simpl. by rewrite decide_True.
Qed.

(** C5 (as the code has it).  On any level, a search that returns gives
    [None] exactly when the destination was never popped from the queue
    (the queue then emptied), and a search that returns [None] had no path
    to the destination.  On a well-formed level, with the start a cell of
    the level, the search returns [None] whenever the destination is not
    reachable; so it does when the destination is a wall other than the
    start. *)
Theorem no_path_iff_unreachable (lvl : level R) (start dest : cell) (fuel : nat) :
  (∀ r, dijkstras_shortest_path fuel start dest lvl navigation_edges = Returns r →
        r = None ↔ dest ∉ search_pops fuel start dest lvl navigation_edges) ∧
  (dijkstras_shortest_path fuel start dest lvl navigation_edges = Returns None →
   ¬ reachable navigation_edges lvl start dest) ∧
  (well_formed lvl → in_level lvl start → (fuel_bound lvl ≤ fuel)%nat →
   (¬ reachable navigation_edges lvl start dest →
    dijkstras_shortest_path fuel start dest lvl navigation_edges = Returns None) ∧
   (dest ∈ walls lvl → dest ≠ start →
    dijkstras_shortest_path fuel start dest lvl navigation_edges = Returns None)).
Proof.
  split_and!.
  - intros r Hret. by apply (search_loop_none_iff _ _ _ _ _ _ _ _ Hret).
  - intros Hnone. pose proof Hnone as Hnone'. unfold dijkstras_shortest_path in Hnone'.
    apply search_none_to_all in Hnone' as [m Hm].
    assert (dijkstras_shortest_path_to_all fuel start lvl navigation_edges = Returns m) as Hall.
    { unfold dijkstras_shortest_path_to_all. rewrite <- Hm. f_equal.
      by rewrite fmap_insert, fmap_empty. }
    destruct (grid_completed_search lvl start fuel m dest (fuel + (8 * size m + 2)) Hall)
      as [(l & c & Hsearch & _)|[_ Hno]]; [lia| |done].
    unfold dijkstras_shortest_path in *.
    rewrite (search_loop_fuel_mono _ _ _ _ _ _ _ _ _ _ Hnone) in Hsearch by lia. done.
  - intros Hwf Hstart Hfuel.
    assert (¬ reachable navigation_edges lvl start dest →
            dijkstras_shortest_path fuel start dest lvl navigation_edges = Returns None) as Hno.
    { intros Hno. destruct (grid_search lvl start dest fuel Hwf Hstart Hfuel)
        as [(l & c & _ & Htr & _)|[? _]]; [|done]. destruct Hno. by exists l, c. }
    split; [done|]. intros Hwall Hne. apply Hno. intros (l & c & Htr).
    by apply (trail_not_wall _ _ _ _ _ Htr Hne).
Qed.

Lemma no_path_iff_unreachable_witness :
  dijkstras_shortest_path 26 (0, 0)%Z (-1, 0)%Z corridor navigation_edges = Returns None.
Proof.
  destruct (no_path_iff_unreachable corridor (0, 0)%Z (-1, 0)%Z 26) as (_ & _ & Hwf).
  apply Hwf.
  - exact corridor_well_formed.
  - right. eexists. reflexivity.
  - vm_compute. lia.
  - vm_compute. reflexivity.
  - intros [=].
Defined.

(** C5 as stated fails when the destination is a wall and is also the start:
    the search returns the one-cell path.  It fails too on a level that is
    not closed in by walls: the search for an unreachable cell raises. *)
Lemma no_path_wall_start_counterexample :
  (0, 0)%Z ∈ walls lone_wall_real ∧
  dijkstras_shortest_path 5 (0, 0)%Z (0, 0)%Z lone_wall_real navigation_edges
    = Returns (Some [(0, 0)%Z]) ∧
  dijkstras_shortest_path 30 (0, 0)%Z (7, 7)%Z open3 navigation_edges
    = Raises TypeError.
Proof.
  split_and!.
  - by apply elem_of_singleton.
  - reflexivity.
  - vm_compute. reflexivity.
Qed.

(** C6.  For a cell that is not a wall: if some candidate neighbour is not
    a wall and has no weight in [spaces] or [waypoints], or if the cell
    itself has no weight and some neighbour is not a wall, the call raises
    (the addition with [None] is a [TypeError]); no result is returned. *)
Theorem missing_weight_raises {F : Type} `{Num F} (lvl : level F) (c n : cell) :
  c ∉ walls lvl → n ∈ neighbours c → n ∉ walls lvl →
  weight lvl n = None ∨ weight lvl c = None →
  navigation_edges lvl c = Raises TypeError.
Proof.
  intros Hc Hn Hnw Hnone. unfold navigation_edges. rewrite decide_False by done.
  apply edges_loop_raises. destruct (neighbour_adj_points c n Hn) as [d Hd].
  by exists n, d.
Qed.

Lemma missing_weight_raises_witness :
  navigation_edges open3 (0, 0)%Z = Raises TypeError.
Proof.
  apply (missing_weight_raises open3 (0, 0)%Z (-1, -1)%Z).
  - apply not_elem_of_empty.
  - left.
  - apply not_elem_of_empty.
  - left. reflexivity.
Defined.

(** C7.  For adjacent cells [a] and [b], neither a wall, of weights [wa]
    and [wb]: the edge from [a] to [b] that [navigation_edges] lists costs
    [distance_factor * (wa + wb) / 2], the factor being [sqrt 2] for the
    four diagonal neighbours and 1 for the four orthogonal ones; the edge
    from [b] to [a] costs the same; with equal weights [w] the diagonal
    edge costs [w * sqrt 2] and the orthogonal edge [w]. *)
Theorem edge_cost_formula (lvl : level R) (a b : cell) (wa wb : R) (la : list (R * cell)) :
  a ∉ walls lvl → b ∉ walls lvl → b ∈ neighbours a →
  weight lvl a = Some wa → weight lvl b = Some wb →
  navigation_edges lvl a = Returns la →
  let cost := distance_factor a b * (wa + wb) / 2 in
  (cost, b) ∈ la ∧
  (∀ c, (c, b) ∈ la → c = cost) ∧
  (∀ lb, navigation_edges lvl b = Returns lb → (cost, a) ∈ lb) ∧
  (b ∈ diagonals a →
     distance_factor a b = R_sqrt.sqrt 2 ∧ (wa = wb → cost = wa * R_sqrt.sqrt 2)) ∧
  (b ∈ orthogonals a → distance_factor a b = 1 ∧ (wa = wb → cost = wa)).
Proof.
  intros Ha Hb Hn Hwa Hwb Hla cost.
  destruct (neighbour_adj_points (F:=R) a b Hn) as [d Hd].
  destruct (navigation_edges_edge _ _ _ _ _ Hla Ha Hd Hb) as (wa' & wb' & Hwa' & Hwb' & Hin).
  simplify_eq. rewrite (adj_points_factor _ _ _ Hd) in Hin. simpl in Hin.
  rewrite (Rplus_comm wb wa) in Hin. fold cost in Hin.
  split_and!.
  - done.
  - intros c Hc. by apply (navigation_edges_cost_unique _ _ _ _ _ _ Hla Hc Hin).
  - intros lb Hlb. by apply (navigation_edges_sym _ _ _ _ _ _ Hla Hin Hlb).
  - intros Hdiag. assert (distance_factor a b = R_sqrt.sqrt 2) as Hf.
    { destruct a as [x y]. unfold diagonals, distance_factor in *. simpl in *.
      rewrite !elem_of_cons, elem_of_nil in Hdiag.
      case_decide as Hdec; [done|]. exfalso. apply Hdec.
      repeat (destruct Hdiag as [Hdiag|Hdiag]; [simplify_eq; simpl; lia|]). done. }
    split; [done|]. intros ->. unfold cost. rewrite Hf. lra.
  - intros Horth. assert (distance_factor a b = 1) as Hf.
    { destruct a as [x y]. unfold orthogonals, distance_factor in *. simpl in *.
      rewrite !elem_of_cons, elem_of_nil in Horth.
      case_decide as Hdec; [|done]. exfalso.
      repeat (destruct Horth as [Horth|Horth]; [simplify_eq; simpl in *; lia|]). done. }
    split; [done|]. intros ->. unfold cost. rewrite Hf. lra.
Qed.

Lemma edge_cost_formula_witness :
  let cost := distance_factor (0, 0)%Z (1, 0)%Z * (1 + 2) / 2 in
  (cost, (1, 0)%Z) ∈ [(1 * (2 + 1) / 2, (1, 0)%Z)] ∧
  (∀ c, (c, (1, 0)%Z) ∈ [(1 * (2 + 1) / 2, (1, 0)%Z)] → c = cost) ∧
  (∀ lb, navigation_edges corridor (1, 0)%Z = Returns lb → (cost, (0, 0)%Z) ∈ lb) ∧
  ((1, 0)%Z ∈ diagonals (0, 0)%Z →
     distance_factor (0, 0)%Z (1, 0)%Z = R_sqrt.sqrt 2 ∧
     ((1 : R) = 2 → cost = 1 * R_sqrt.sqrt 2)) ∧
  ((1, 0)%Z ∈ orthogonals (0, 0)%Z →
     distance_factor (0, 0)%Z (1, 0)%Z = 1 ∧ ((1 : R) = 2 → cost = 1)).
Proof.
  apply (edge_cost_formula corridor (0, 0)%Z (1, 0)%Z 1 2).
  - vm_compute. intros [=].
  - vm_compute. intros [=].
  - do 5 right. left.
  - reflexivity.
  - reflexivity.
  - reflexivity.
Defined.

(** C8.  A wall cell has no outgoing edges: the call returns the empty
    list. *)
Theorem wall_has_no_edges {F : Type} `{Num F} (lvl : level F) (c : cell) :
  c ∈ walls lvl → navigation_edges lvl c = Returns [].
Proof. apply navigation_edges_wall. Qed.

Lemma wall_has_no_edges_witness : navigation_edges lone_wall (0, 0)%Z = Returns [].
Proof. apply wall_has_no_edges. by apply elem_of_singleton. Defined.

(** C9.  On a well-formed (finite) level both searches terminate:
    [fuel_bound] iterations suffice for each loop, from any start; and when
    the start is a cell of the level (a wall or a weighted cell) each call
    returns. *)
Theorem searches_terminate (lvl : level R) (start dest : cell) (fuel : nat) :
  well_formed lvl → (fuel_bound lvl ≤ fuel)%nat →
  dijkstras_shortest_path fuel start dest lvl navigation_edges ≠ NoFuel ∧
  dijkstras_shortest_path_to_all fuel start lvl navigation_edges ≠ NoFuel ∧
  (in_level lvl start →
   (∃ r, dijkstras_shortest_path fuel start dest lvl navigation_edges = Returns r) ∧
   (∃ m, dijkstras_shortest_path_to_all fuel start lvl navigation_edges = Returns m)).
Proof.
  intros Hwf Hfuel.
  assert (in_level lvl start →
    (∃ r, dijkstras_shortest_path fuel start dest lvl navigation_edges = Returns r) ∧
    (∃ m, dijkstras_shortest_path_to_all fuel start lvl navigation_edges = Returns m))
    as Hreturns.
  { intros Hstart. split.
    - destruct (grid_search lvl start dest fuel Hwf Hstart Hfuel)
        as [(l & c & Hret & _)|[Hret _]]; by eexists.
    - by apply grid_to_all. }
  destruct (weight lvl start) as [w|] eqn:Hw.
  - destruct Hreturns as [[r Hr] [m Hm]]; [right; by eexists|].
    split_and!; [by rewrite Hr|by rewrite Hm|].
    intros _. split; by eexists.
  - destruct (unweighted_start_ends lvl start dest fuel Hw) as [H1 H2];
      [unfold fuel_bound in Hfuel; lia|]. by split_and!.
Qed.

Lemma searches_terminate_witness :
  dijkstras_shortest_path 26 (0, 0)%Z (1, 0)%Z corridor navigation_edges ≠ NoFuel ∧
  dijkstras_shortest_path_to_all 26 (0, 0)%Z corridor navigation_edges ≠ NoFuel ∧
  (∃ r, dijkstras_shortest_path 26 (0, 0)%Z (1, 0)%Z corridor navigation_edges
          = Returns r) ∧
  (∃ m, dijkstras_shortest_path_to_all 26 (0, 0)%Z corridor navigation_edges
          = Returns m).
Proof.
  destruct (searches_terminate corridor (0, 0)%Z (1, 0)%Z 26) as (H1 & H2 & H3).
  - exact corridor_well_formed.
  - vm_compute. lia.
  - split_and!; [exact H1|exact H2|apply H3..]; right; eexists; reflexivity.
Defined.

(** C10.  Whenever the cost search returns a mapping, on any level and from
    any start, the mapping sends the start to cost 0; when the start is a
    wall the mapping is exactly [{start: 0}]. *)
Theorem start_costs_zero (lvl : level R) (start : cell) (fuel : nat) :
  (∀ m, dijkstras_shortest_path_to_all fuel start lvl navigation_edges = Returns m →
        m !! start = Some 0) ∧
  (start ∈ walls lvl → (2 ≤ fuel)%nat →
   dijkstras_shortest_path_to_all fuel start lvl navigation_edges
     = Returns {[ start := 0 ]}).
Proof.
  split.
  - intros m Hret. by destruct (grid_completed_to_all _ _ _ _ Hret).
  - intros Hwall Hfuel. destruct fuel as [|[|fuel]]; [lia..|].
    unfold dijkstras_shortest_path_to_all. simpl.
    rewrite navigation_edges_wall by done. reflexivity.
Qed.

Lemma start_costs_zero_witness :
  origin_only !! (0, 0)%Z = Some 0 ∧
  dijkstras_shortest_path_to_all 2 (0, 0)%Z lone_wall_real navigation_edges
    = Returns {[ (0, 0)%Z := 0 ]}.
Proof.
  split.
  - apply (proj1 (start_costs_zero island (0, 0)%Z 5)). reflexivity.
  - apply (proj2 (start_costs_zero lone_wall_real (0, 0)%Z 2)).
    + by apply elem_of_singleton.
    + lia.
Defined.

End Claims.

(** * Further properties of the code *)

(** ** navigation_edges *)

Section MoreEdges.
Context {F : Type} `{Num F}.
Implicit Types (lvl : level F) (c : cell).

Lemma neighbours_NoDup c : NoDup (neighbours c).
Proof.
  destruct c as [x y]. unfold neighbours. simpl.
  repeat (apply NoDup_cons; split;
    [rewrite ?elem_of_cons, elem_of_nil; intros Hin;
     repeat (destruct Hin as [Hin|Hin]; [simplify_eq; lia|]); done|]).
  apply NoDup_nil_2.
Qed.

Lemma neighbours_not_self c : c ∉ neighbours c.
Proof.
  intros Hin. destruct (neighbour_adj_points (F:=F) c c Hin) as [d Hd].
  by apply adj_points_ne in Hd.
Qed.

Lemma edges_loop_targets lvl weig pts acc l :
  edges_loop lvl weig pts acc = Returns l →
  l.*2 = acc.*2 ++ filter (λ p, p ∉ walls lvl) pts.*1.
Proof.
  revert acc. induction pts as [|[point dist] pts IH]; intros acc Hret; simpl in Hret.
  - simplify_eq. by rewrite app_nil_r.
  - rewrite fmap_cons, filter_cons. simpl.
    destruct (decide (point ∈ walls lvl)) as [Hw|Hw].
    + rewrite decide_False by (by intros ?). by apply IH.
    + rewrite decide_True by done.
      destruct (weight lvl point) as [pw|]; [|done]. destruct weig as [w|]; [|done].
      rewrite (IH _ Hret), fmap_app. simpl. by rewrite <- app_assoc.
Qed.

Lemma edges_loop_raises_inv lvl weig pts acc e :
  edges_loop lvl weig pts acc = Raises e →
  e = TypeError ∧
  ∃ p d, (p, d) ∈ pts ∧ (p ∉ walls lvl) ∧ (weight lvl p = None ∨ weig = None).
Proof.
  revert acc. induction pts as [|[point dist] pts IH]; intros acc Hret; simpl in Hret; [done|].
  assert (∀ acc', edges_loop lvl weig pts acc' = Raises e →
            e = TypeError ∧
            ∃ p d, (p, d) ∈ (point, dist) :: pts ∧ (p ∉ walls lvl) ∧
                   (weight lvl p = None ∨ weig = None)) as Hrest.
  { intros acc' Hr. destruct (IH _ Hr) as (-> & p & d & Hin & ?).
    split; [done|]. exists p, d. split; [by right|done]. }
  destruct (decide (point ∈ walls lvl)) as [Hw|Hw]; [by eapply Hrest|].
  destruct (weight lvl point) as [pw|] eqn:Hpw.
  - destruct weig as [w|]; [by eapply Hrest|]. simplify_eq.
    split; [done|]. exists point, dist. split_and!; [by left|done|by right].
  - simplify_eq. split; [done|]. exists point, dist. split_and!; [by left|done|by left].
Qed.

Lemma edges_loop_ext lvl1 lvl2 weig pts acc :
  (∀ p d, (p, d) ∈ pts →
     (p ∈ walls lvl1 ↔ p ∈ walls lvl2) ∧ weight lvl1 p = weight lvl2 p) →
  edges_loop lvl1 weig pts acc = edges_loop lvl2 weig pts acc.
Proof.
  revert acc. induction pts as [|[point dist] pts IH]; intros acc Hag; simpl; [done|].
  destruct (Hag point dist ltac:(by left)) as [Hw Hwt].
  assert (∀ acc', edges_loop lvl1 weig pts acc' = edges_loop lvl2 weig pts acc') as Hrest.
  { intros acc'. apply IH. intros p d Hin. apply (Hag p d). by right. }
  destruct (decide (point ∈ walls lvl1)) as [H1|H1],
           (decide (point ∈ walls lvl2)) as [H2|H2]; [done|tauto|tauto|].
  rewrite Hwt. destruct (weight lvl2 point), weig; done.
Qed.

Lemma navigation_edges_raises_type lvl c e :
  navigation_edges lvl c = Raises e → e = TypeError.
Proof.
  unfold navigation_edges. destruct (decide (c ∈ walls lvl)); [done|].
  intros Hr. by apply edges_loop_raises_inv in Hr as [-> _].
Qed.

End MoreEdges.

(** X1.  When [navigation_edges] returns for a cell that is not a wall, the
    cells of the listed edges are exactly the neighbours that are not walls,
    in the order of the eight offsets: one edge for each, none listed twice,
    and never an edge to the cell itself. *)
Theorem navigation_edges_targets {F : Type} `{Num F} (lvl : level F) (c : cell)
    (l : list (F * cell)) :
  navigation_edges lvl c = Returns l → c ∉ walls lvl →
  l.*2 = filter (λ p, p ∉ walls lvl) (neighbours c) ∧ NoDup l.*2 ∧ c ∉ l.*2.
Proof.
  intros Hret Hc. unfold navigation_edges in Hret. rewrite decide_False in Hret by done.
  apply edges_loop_targets in Hret. simpl in Hret.
  rewrite (neighbours_adj_points c) in Hret. rewrite Hret. split_and!; [done| |].
  - apply NoDup_filter, neighbours_NoDup.
  - intros Hin. apply list_elem_of_filter in Hin as [_ Hin].
    by apply neighbours_not_self in Hin.
Qed.

Lemma navigation_edges_targets_witness :
  let l := [ (1%float, (1, 0)%Z); (1%float, (0, 1)%Z);
             (0x1.6a09e667f3bcdp+0%float, (1, 1)%Z) ] in
  l.*2 = filter (λ p, p ∉ walls walled3) (neighbours (0, 0)%Z) ∧
  NoDup l.*2 ∧ (0, 0)%Z ∉ l.*2.
Proof.
  apply (navigation_edges_targets walled3 (0, 0)%Z).
  - vm_compute. reflexivity.
  - apply (bool_decide_unpack _). vm_compute. exact I.
Defined.

(** X2.  [navigation_edges] raises exactly when the cell is not a wall and
    has a neighbour, not a wall, such that the neighbour or the cell itself
    has no weight; the exception is then a [TypeError], never a
    [KeyError]. *)
Theorem navigation_edges_raises_iff {F : Type} `{Num F} (lvl : level F) (c : cell) (e : exn) :
  navigation_edges lvl c = Raises e ↔
  e = TypeError ∧ (c ∉ walls lvl) ∧
  ∃ n, n ∈ neighbours c ∧ (n ∉ walls lvl) ∧ (weight lvl n = None ∨ weight lvl c = None).
Proof.
  split.
  - unfold navigation_edges. destruct (decide (c ∈ walls lvl)) as [Hw|Hw]; [done|].
    intros Hr. apply edges_loop_raises_inv in Hr as (-> & p & d & Hin & Hp & Hnone).
    split_and!; [done..|]. exists p. split; [by eapply adj_points_neighbour|done].
  - intros (-> & Hc & n & Hn & Hnw & Hnone). unfold navigation_edges.
    rewrite decide_False by done. apply edges_loop_raises.
    destruct (neighbour_adj_points (F:=F) c n Hn) as [d Hd]. by exists n, d.
Qed.

(** X3.  The result of [navigation_edges] for a cell depends only on the
    cell and its eight neighbours: two levels that agree there, on which
    cells are walls and on the weights, give the same result.  In
    particular it does not matter whether a weight is found in [spaces] or
    in [waypoints]. *)
Theorem navigation_edges_local {F : Type} `{Num F} (lvl1 lvl2 : level F) (c : cell) :
  (∀ n, n = c ∨ n ∈ neighbours c →
     (n ∈ walls lvl1 ↔ n ∈ walls lvl2) ∧ weight lvl1 n = weight lvl2 n) →
  navigation_edges lvl1 c = navigation_edges lvl2 c.
Proof.
  intros Hag. destruct (Hag c ltac:(by left)) as [Hw Hwt]. unfold navigation_edges.
  destruct (decide (c ∈ walls lvl1)) as [H1|H1],
           (decide (c ∈ walls lvl2)) as [H2|H2]; [done|tauto|tauto|].
  rewrite Hwt. apply edges_loop_ext. intros p d Hin. apply Hag. right.
  by eapply adj_points_neighbour.
Qed.

Lemma navigation_edges_local_witness :
  navigation_edges walled3 (1, 1)%Z = navigation_edges open3 (1, 1)%Z.
Proof.
  apply (navigation_edges_local walled3 open3 (1, 1)%Z).
  intros n [->|Hn].
  - split; [|reflexivity]. apply (bool_decide_unpack _). vm_compute. exact I.
  - unfold neighbours in Hn. simpl in Hn.
    rewrite !elem_of_cons, elem_of_nil in Hn.
    repeat (destruct Hn as [->|Hn];
      [split; [apply (bool_decide_unpack _); vm_compute; exact I|reflexivity]|]).
    done.
Defined.

Section MoreCosts.
Local Open Scope R_scope.
Implicit Types (lvl : level R).

Lemma sqrt2_bounds : 1 <= R_sqrt.sqrt 2 ∧ R_sqrt.sqrt 2 * R_sqrt.sqrt 2 = 2.
Proof.
  split; [|apply R_sqrt.sqrt_sqrt; lra].
  rewrite <- R_sqrt.sqrt_1 at 1. apply R_sqrt.sqrt_le_1_alt. lra.
Qed.

Lemma distance_factor_bounds a b : 1 <= distance_factor a b <= R_sqrt.sqrt 2.
Proof.
  destruct sqrt2_bounds as [Hs _]. unfold distance_factor. case_decide; lra.
Qed.

(** X4.  With weights that are not negative, the cost of a listed edge
    lies between the smaller of the two weights and [sqrt 2] times the
    larger: a step never costs less than the cheaper of its two cells. *)
Theorem navigation_edges_cost_bounds lvl (a b : cell) (l : list (R * cell)) (c wa wb : R) :
  navigation_edges lvl a = Returns l → (c, b) ∈ l →
  weight lvl a = Some wa → weight lvl b = Some wb → 0 <= wa → 0 <= wb →
  Rmin wa wb <= c <= R_sqrt.sqrt 2 * Rmax wa wb.
Proof.
  intros Hret Hin Hwa Hwb Ha Hb.
  destruct (navigation_edges_cost _ _ _ _ _ Hret Hin) as (wa' & wb' & Hwa' & Hwb' & ->).
  rewrite Hwa in Hwa'. rewrite Hwb in Hwb'. simplify_eq.
  destruct (distance_factor_bounds a b) as [Hlo Hhi].
  destruct sqrt2_bounds as [Hs _].
  unfold Rmin, Rmax. destruct (Rle_dec wa' wb'); split; nra.
Qed.

Lemma navigation_edges_cost_bounds_witness :
  Rmin 1 2 <= 1 * (2 + 1) / 2 <= R_sqrt.sqrt 2 * Rmax 1 2.
Proof.
  apply (navigation_edges_cost_bounds corridor (0, 0)%Z (1, 0)%Z
           [(1 * (2 + 1) / 2, (1, 0)%Z)]).
  - reflexivity.
  - left.
  - reflexivity.
  - reflexivity.
  - lra.
  - lra.
Defined.

End MoreCosts.

(** ** The loops never fail on their own *)

Section MoreLoops.
Context {F : Type} `{Num F} {G : Type}.
Variable adj : G → cell → result (list (F * cell)).
Variable graph : G.
Implicit Types (T : gmap cell (F * option cell)) (Q : list (F * cell)).

Lemma relax_tracked u T Q e T' Q' :
  relax u (T, Q) e = Returns (T', Q') → queue_tracked T Q → preds_tracked T →
  queue_tracked T' Q' ∧ preds_tracked T' ∧ ∀ v, is_Some (T !! v) → is_Some (T' !! v).
Proof.
  destruct e as [cost node]. intros Hret HQ HP.
  apply relax_returns in Hret as (c0 & p0 & Hu & [(-> & -> & _)|(-> & -> & _)]); [done|].
  assert (∀ v, is_Some (T !! v) →
            is_Some (<[node := (nadd cost c0, Some u)]> T !! v)) as Hmono.
  { intros v Hv. apply lookup_insert_is_Some'. by right. }
  split_and!; [| |done].
  - intros c v Hin. apply elem_of_app in Hin as [Hin|Hin]; [by eapply Hmono, HQ|].
    apply list_elem_of_singleton in Hin. simplify_eq.
    apply lookup_insert_is_Some'. by left.
  - intros v c u' Hv. apply Hmono.
    apply lookup_insert_Some in Hv as [[_ ?]|[_ Hv]]; [by simplify_eq|by eapply HP].
Qed.

Lemma relax_all_tracked u edges T Q :
  is_Some (T !! u) → queue_tracked T Q → preds_tracked T →
  ∃ T' Q', relax_all u edges (T, Q) = Returns (T', Q') ∧
           queue_tracked T' Q' ∧ preds_tracked T'.
Proof.
  revert T Q. induction edges as [|e edges IH]; intros T Q Hu HQ HP; [simpl; by eauto|].
  change (relax_all u (e :: edges) (T, Q)) with (relax u (T, Q) e ≫= relax_all u edges).
  destruct Hu as [[c0 p0] Hu].
  destruct (relax_total u T Q e c0 p0 Hu) as (T1 & Q1 & Hstep). rewrite Hstep. simpl.
  destruct (relax_tracked _ _ _ _ _ _ Hstep HQ HP) as (HQ1 & HP1 & Hmono).
  apply IH; [apply Hmono; by eexists|done..].
Qed.

Lemma build_path_no_raise fuel T v acc e :
  preds_tracked T → is_Some (T !! v) → build_path fuel T v acc ≠ Raises e.
Proof.
  intros HP. revert v acc. induction fuel as [|fuel IH]; intros v acc [[c p] Hv]; simpl; [done|].
  rewrite Hv. destruct p as [u|]; [|done]. apply IH. by eapply HP.
Qed.

Lemma heappop_tracked {A} (M : gmap cell A) Q c u Q' :
  heappop Q = Some ((c, u), Q') → queue_tracked M Q →
  is_Some (M !! u) ∧ queue_tracked M Q'.
Proof.
  intros Hpop HQ. split.
  - apply (HQ c). apply (heappop_elem _ _ _ _ Hpop). by left.
  - intros c' v Hin. apply (HQ c'). apply (heappop_elem _ _ _ _ Hpop). by right.
Qed.

(** An exception of the search is an exception of [adj], raised for a cell
    that was popped. *)
Lemma search_loop_raises fuel pfuel dest T Q e :
  search_loop adj graph fuel pfuel dest T Q = Raises e →
  queue_tracked T Q → preds_tracked T →
  ∃ u, u ∈ popped_cells adj graph fuel dest T Q ∧ adj graph u = Raises e.
Proof.
  revert T Q. induction fuel as [|fuel IH]; intros T Q Hret HQ HP; simpl in *; [done|].
  destruct (heappop Q) as [[[currCost currNode] Q']|] eqn:Hpop; [|done].
  destruct (heappop_tracked _ _ _ _ _ Hpop HQ) as [Hu HQ'].
  destruct (decide (currNode = dest)) as [->|Hne].
  - destruct (build_path pfuel T dest []) as [p| |] eqn:Hb; [done| |done].
    by apply build_path_no_raise in Hb.
  - destruct (adj graph currNode) as [edges|e'|] eqn:Hadj; [| |done].
    + destruct (relax_all_tracked currNode edges T Q' Hu HQ' HP)
        as (T1 & Q1 & Hrel & HQ1 & HP1).
      simpl in Hret. rewrite Hrel in *. simpl in Hret.
      destruct (IH _ _ Hret HQ1 HP1) as (u & Hin & Hraise).
      exists u. split; [by right|done].
    + simpl in Hret. simplify_eq. exists currNode. split; [by left|done].
Qed.

End MoreLoops.

Section MoreCostLoop.
Context {F : Type} `{Num F} {G : Type}.
Variable adj : G → cell → result (list (F * cell)).
Variable graph : G.
Implicit Types (M : gmap cell F) (Q : list (F * cell)).

Lemma relax_cost_tracked u M Q e :
  is_Some (M !! u) → queue_tracked M Q →
  ∃ M' Q', relax_cost u (M, Q) e = Returns (M', Q') ∧
           queue_tracked M' Q' ∧ is_Some (M' !! u).
Proof.
  destruct e as [cost node]. intros [c0 Hu] HQ. unfold relax_cost. rewrite Hu.
  assert (∀ x, queue_tracked (<[node := x]> M) (heappush Q (x, node)) ∧
               is_Some (<[node := x]> M !! u)) as Hins.
  { intros x. split.
    - intros c v Hin. apply lookup_insert_is_Some'.
      apply elem_of_app in Hin as [Hin|Hin]; [right; by eapply HQ|].
      apply list_elem_of_singleton in Hin. simplify_eq. by left.
    - apply lookup_insert_is_Some'. right. by eexists. }
  destruct (M !! node) as [c1|] eqn:Hn.
  - destruct (nltb (nadd cost c0) c1).
    + eexists _, _. split; [done|]. rewrite insert_delete_eq. apply Hins.
    + eexists _, _. split; [done|]. split; [done|by eexists].
  - eexists _, _. split; [done|]. apply Hins.
Qed.

Lemma relax_cost_all_tracked u edges M Q :
  is_Some (M !! u) → queue_tracked M Q →
  ∃ M' Q', relax_cost_all u edges (M, Q) = Returns (M', Q') ∧ queue_tracked M' Q'.
Proof.
  revert M Q. induction edges as [|e edges IH]; intros M Q Hu HQ; [simpl; by eauto|].
  change (relax_cost_all u (e :: edges) (M, Q))
    with (relax_cost u (M, Q) e ≫= relax_cost_all u edges).
  destruct (relax_cost_tracked u M Q e Hu HQ) as (M1 & Q1 & Hstep & HQ1 & Hu1).
  rewrite Hstep. simpl. by apply IH.
Qed.

Lemma to_all_loop_raises fuel M Q e :
  to_all_loop adj graph fuel M Q = Raises e → queue_tracked M Q →
  ∃ u, adj graph u = Raises e.
Proof.
  revert M Q. induction fuel as [|fuel IH]; intros M Q Hret HQ; simpl in *; [done|].
  destruct (heappop Q) as [[[currCost currNode] Q']|] eqn:Hpop; [|done].
  destruct (heappop_tracked _ _ _ _ _ Hpop HQ) as [Hu HQ'].
  destruct (adj graph currNode) as [edges|e'|] eqn:Hadj; [| |done].
  - destruct (relax_cost_all_tracked currNode edges M Q' Hu HQ') as (M1 & Q1 & Hrel & HQ1).
    simpl in Hret. rewrite Hrel in *. simpl in Hret. by eapply IH.
  - simpl in Hret. simplify_eq. by exists currNode.
Qed.

Lemma queue_tracked_init {A} (start : cell) (c : F) (x : A) :
  queue_tracked (<[start := x]> ∅) [(c, start)].
Proof.
  intros c' v Hin. apply list_elem_of_singleton in Hin. simplify_eq.
  rewrite lookup_insert_eq. by eexists.
Qed.

Lemma preds_tracked_init (start : cell) (c : F) :
  preds_tracked (<[start := (c, None)]> ∅).
Proof.
  intros v c' u Hv. apply lookup_insert_Some in Hv as [[_ ?]|[_ Hv]]; [done|].
  by rewrite lookup_empty in Hv.
Qed.

End MoreCostLoop.

(** X5.  The searches raise nothing of their own: an exception of
    [dijkstras_shortest_path] was raised by [adj] for a cell the search had
    popped, and an exception of [dijkstras_shortest_path_to_all] was raised
    by [adj]; no lookup in [tracking] fails.  With [navigation_edges] the
    only exception either search can raise is therefore [TypeError]. *)
Theorem searches_raise_only_from_adj {F : Type} `{Num F} {G : Type} (fuel : nat)
    (start dest : cell) (graph : G) (adj : G → cell → result (list (F * cell)))
    (lvl : level F) (e : exn) :
  (dijkstras_shortest_path fuel start dest graph adj = Raises e →
     ∃ u, u ∈ search_pops fuel start dest graph adj ∧ adj graph u = Raises e) ∧
  (dijkstras_shortest_path_to_all fuel start graph adj = Raises e →
     ∃ u, adj graph u = Raises e) ∧
  (dijkstras_shortest_path fuel start dest lvl navigation_edges = Raises e →
     e = TypeError) ∧
  (dijkstras_shortest_path_to_all fuel start lvl navigation_edges = Raises e →
     e = TypeError).
Proof.
  assert (∀ G' (g : G') (a : G' → cell → result (list (F * cell))),
            dijkstras_shortest_path fuel start dest g a = Raises e →
            ∃ u, u ∈ search_pops fuel start dest g a ∧ a g u = Raises e) as Hs.
  { intros G' g a Hr. eapply search_loop_raises;
      [exact Hr|apply queue_tracked_init|apply preds_tracked_init]. }
  assert (∀ G' (g : G') (a : G' → cell → result (list (F * cell))),
            dijkstras_shortest_path_to_all fuel start g a = Raises e →
            ∃ u, a g u = Raises e) as Ha.
  { intros G' g a Hr. eapply to_all_loop_raises; [exact Hr|apply queue_tracked_init]. }
  split_and!; [apply Hs|apply Ha| |].
  - intros Hr. destruct (Hs _ _ _ Hr) as (u & _ & Hu).
    by eapply navigation_edges_raises_type.
  - intros Hr. destruct (Ha _ _ _ Hr) as (u & Hu).
    by eapply navigation_edges_raises_type.
Qed.

(** ** The keys of a returned cost mapping, for any arithmetic *)

Section Explored.
Context {F : Type} `{Num F} {G : Type}.
Variable adj : G → cell → result (list (F * cell)).
Variable graph : G.
Variable start : cell.
Implicit Types (M : gmap cell F) (Q : list (F * cell)).

Lemma relax_cost_returns u M Q cost node M' Q' :
  relax_cost u (M, Q) (cost, node) = Returns (M', Q') →
  ∃ c0, M !! u = Some c0 ∧
    ((M' = M ∧ Q' = Q ∧ is_Some (M !! node)) ∨
     (M' = <[node := nadd cost c0]> M ∧ Q' = Q ++ [(nadd cost c0, node)])).
Proof.
  unfold relax_cost. destruct (M !! u) as [c0|] eqn:Hu; [|done].
  intros Hret. exists c0. split; [done|].
  destruct (M !! node) as [c1|] eqn:Hn.
  - destruct (nltb (nadd cost c0) c1); simplify_eq.
    + right. by rewrite insert_delete_eq.
    + left. split_and!; [done..|by eexists].
  - simplify_eq. by right.
Qed.

Lemma relax_cost_explored (P : cell → Prop) u edges0 M Q e M' Q' :
  relax_cost u (M, Q) e = Returns (M', Q') →
  adj graph u = Returns edges0 → e ∈ edges0 →
  explored adj graph start P M Q →
  explored adj graph start P M' Q' ∧
  (∀ x, is_Some (M !! x) → is_Some (M' !! x)) ∧ is_Some (M' !! e.2).
Proof.
  destruct e as [cost node]. intros Hret Hadj Hin (Hs & HQ & Hcl & Hre).
  apply relax_cost_returns in Hret as (c0 & Hu & [(-> & -> & Hn)|(-> & ->)]).
  { split_and!; [by split_and!|done|done]. }
  assert (∀ x, is_Some (M !! x) → is_Some (<[node := nadd cost c0]> M !! x)) as Hmono.
  { intros x Hx. apply lookup_insert_is_Some'. by right. }
  split_and!; [split_and!| |].
  - by apply Hmono.
  - intros c v Hv. apply elem_of_app in Hv as [Hv|Hv]; [by eapply Hmono, HQ|].
    apply list_elem_of_singleton in Hv. simplify_eq.
    apply lookup_insert_is_Some'. by left.
  - intros x Hx. destruct (decide (x = node)) as [->|Hne].
    + right. left. exists (nadd cost c0). apply elem_of_app. right.
      by apply list_elem_of_singleton.
    + rewrite lookup_insert_ne in Hx by done.
      destruct (Hcl x Hx) as [?|[[c Hc]|(l & Hl & Hall)]]; [by left| |].
      * right. left. exists c. apply elem_of_app. by left.
      * right. right. exists l. split; [done|]. intros w v Hv. by eapply Hmono, Hall.
  - intros v Hv. destruct (decide (v = node)) as [->|Hne].
    + destruct (Hre u ltac:(by eexists)) as (l & c & Htr).
      exists (u :: l), (nadd cost c). by eapply trail_step.
    + rewrite lookup_insert_ne in Hv by done. by apply Hre.
  - done.
  - simpl. apply lookup_insert_is_Some'. by left.
Qed.

Lemma relax_cost_all_explored (P : cell → Prop) u edges0 edges M Q M' Q' :
  relax_cost_all u edges (M, Q) = Returns (M', Q') →
  adj graph u = Returns edges0 → (∀ e, e ∈ edges → e ∈ edges0) →
  explored adj graph start P M Q →
  explored adj graph start P M' Q' ∧
  (∀ x, is_Some (M !! x) → is_Some (M' !! x)) ∧
  (∀ e, e ∈ edges → is_Some (M' !! e.2)).
Proof.
  revert M Q. induction edges as [|e edges IH]; intros M Q Hret Hadj Hsub Hex.
  - simpl in Hret. simplify_eq. split_and!; [done..|].
    intros e He. by apply elem_of_nil in He.
  - change (relax_cost_all u (e :: edges) (M, Q))
      with (relax_cost u (M, Q) e ≫= relax_cost_all u edges) in Hret.
    apply bind_returns in Hret as ([M1 Q1] & Hstep & Hret).
    destruct (relax_cost_explored P u edges0 M Q e M1 Q1 Hstep Hadj
                ltac:(apply Hsub; by left) Hex) as (Hex1 & Hmono1 & He1).
    destruct (IH M1 Q1 Hret Hadj ltac:(intros e' He'; apply Hsub; by right) Hex1)
      as (Hex' & Hmono' & Hall').
    split_and!; [done|by intros x Hx; apply Hmono', Hmono1|].
    intros e' He'. apply elem_of_cons in He' as [->|He']; [by apply Hmono'|by apply Hall'].
Qed.

Lemma to_all_loop_explored fuel M Q m :
  to_all_loop adj graph fuel M Q = Returns m →
  explored adj graph start (λ _, False) M Q →
  explored adj graph start (λ _, False) m [].
Proof.
  revert M Q. induction fuel as [|fuel IH]; intros M Q Hret Hex; simpl in Hret; [done|].
  destruct (heappop Q) as [[[currCost u] Q']|] eqn:Hpop.
  - apply bind_returns in Hret as (edges & Hadj & Hret).
    apply bind_returns in Hret as ([M1 Q1] & Hrel & Hret).
    destruct Hex as (Hs & HQ & Hcl & Hre).
    destruct (heappop_tracked _ _ _ _ _ Hpop HQ) as [Hu HQ'].
    assert (explored adj graph start (λ x, x = u) M Q') as Hex'.
    { split_and!; [done..| |done]. intros x Hx.
      destruct (Hcl x Hx) as [[]|[[c Hc]|?]]; [|by right; right].
      apply (heappop_elem _ _ _ _ Hpop) in Hc as [Heq|Hc]; [left; by simplify_eq|].
      right. left. by exists c. }
    destruct (relax_cost_all_explored _ u edges edges M Q' M1 Q1 Hrel Hadj
                ltac:(done) Hex') as ((Hs1 & HQ1 & Hcl1 & Hre1) & Hmono & Hall).
    apply (IH M1 Q1 Hret). split_and!; [done..| |done].
    intros x Hx. destruct (Hcl1 x Hx) as [->|[?|?]]; [|by right; left|by right; right].
    right. right. exists edges. split; [done|]. intros w v Hv. exact (Hall (w, v) Hv).
  - simplify_eq. apply heappop_nil in Hpop. by subst Q.
Qed.

Lemma explored_init (c : F) :
  explored adj graph start (λ _, False) (<[start := c]> ∅) [(c, start)].
Proof.
  split_and!.
  - rewrite lookup_insert_eq. by eexists.
  - apply queue_tracked_init.
  - intros x Hx. right. left. exists c.
    apply lookup_insert_is_Some' in Hx as [->|Hx]; [by left|].
    rewrite lookup_empty in Hx. by destruct Hx.
  - intros v Hv. apply lookup_insert_is_Some' in Hv as [->|Hv].
    + exists [], (of_int 0). apply trail_start.
    + rewrite lookup_empty in Hv. by destruct Hv.
Qed.

(** The keys of a returned mapping hold the start, are closed under the
    edges of [adj], and are the cells a path reaches from the start. *)
Lemma to_all_keys fuel m :
  dijkstras_shortest_path_to_all fuel start graph adj = Returns m →
  is_Some (m !! start) ∧
  (∀ u, is_Some (m !! u) →
     ∃ l, adj graph u = Returns l ∧ ∀ w v, (w, v) ∈ l → is_Some (m !! v)) ∧
  (∀ v, is_Some (m !! v) ↔ reachable adj graph start v).
Proof.
  intros Hret. unfold dijkstras_shortest_path_to_all in Hret.
  destruct (to_all_loop_explored _ _ _ _ Hret (explored_init _)) as (Hs & _ & Hcl & Hre).
  assert (∀ u, is_Some (m !! u) →
            ∃ l, adj graph u = Returns l ∧ ∀ w v, (w, v) ∈ l → is_Some (m !! v)) as Hclosed.
  { intros u Hu. destruct (Hcl u Hu) as [[]|[[c Hc]|?]]; [|done].
    by apply elem_of_nil in Hc. }
  split_and!; [done..|]. intros v. split; [apply Hre|].
  intros (l & c & Htr).
  assert (∀ l c, trail adj graph start l c → ∀ x, x ∈ l → is_Some (m !! x)) as Hall.
  { clear l c Htr. induction 1 as [|u l c edges w x Htr IH Hadj Hin]; intros y Hy.
    - apply list_elem_of_singleton in Hy. by subst.
    - apply elem_of_cons in Hy as [->|Hy]; [|by apply IH].
      destruct (Hclosed u (IH u ltac:(by left))) as (l' & Hl' & Hall').
      rewrite Hadj in Hl'. simplify_eq. by eapply Hall'. }
  eapply Hall; [done|by left].
Qed.

(** A path from [a] to [b] and a path from [b] make a path from [a]. *)
Lemma trail_join a b l1 x l y :
  trail adj graph a (b :: l1) x → trail adj graph b l y →
  ∀ v, head l = Some v → reachable adj graph a v.
Proof.
  intros Hab Hb. induction Hb as [|u l c edges w v Htr IH Hadj Hin]; intros v' Hhd;
    simpl in Hhd; simplify_eq.
  - by exists l1, x.
  - destruct (IH u eq_refl) as (l' & c' & Htr'). exists (u :: l'), (nadd w c').
    by eapply trail_step.
Qed.

End Explored.

(** ** The returned list is a path of the graph *)

Section MorePaths.
Context {F : Type} `{Num F} {G : Type}.
Variable adj : G → cell → result (list (F * cell)).
Variable graph : G.
Implicit Types (T : gmap cell (F * option cell)) (Q : list (F * cell)).

Lemma relax_linked u edges0 T Q e T' Q' :
  relax u (T, Q) e = Returns (T', Q') →
  adj graph u = Returns edges0 → e ∈ edges0 →
  linked adj graph T → linked adj graph T'.
Proof.
  destruct e as [cost node]. intros Hret Hadj Hin HL.
  apply relax_returns in Hret as (c0 & p0 & _ & [(-> & _)|(-> & _)]); [done|].
  intros v c u' Hv. apply lookup_insert_Some in Hv as [[? ?]|[_ Hv]]; [|by eapply HL].
  simplify_eq. by exists edges0, cost.
Qed.

Lemma relax_all_linked u edges0 edges T Q T' Q' :
  relax_all u edges (T, Q) = Returns (T', Q') →
  adj graph u = Returns edges0 → (∀ e, e ∈ edges → e ∈ edges0) →
  linked adj graph T → linked adj graph T'.
Proof.
  revert T Q. induction edges as [|e edges IH]; intros T Q Hret Hadj Hsub HL; simpl in Hret.
  - by simplify_eq.
  - apply bind_returns in Hret as ([T1 Q1] & Hstep & Hret).
    eapply IH; [done..| |].
    + intros e' He'. apply Hsub. by right.
    + eapply relax_linked; [done..| |done]. apply Hsub. by left.
Qed.

Lemma chain_trail start T l :
  chain T l → rooted start T → linked adj graph T → ∃ c, trail adj graph start l c.
Proof.
  intros Hch Hroot HL. induction Hch as [v c Hv|v c u l Hv Hch IH].
  - rewrite (Hroot _ _ Hv). eexists. apply trail_start.
  - destruct IH as [c' Htr]. destruct (HL _ _ _ Hv) as (edges & w & Hadj & Hin).
    eexists. by eapply trail_step.
Qed.

Lemma search_loop_trail start fuel pfuel dest T Q p :
  search_loop adj graph fuel pfuel dest T Q = Returns (Some p) →
  rooted start T → linked adj graph T →
  ∃ c, trail adj graph start p c.
Proof.
  revert T Q. induction fuel as [|fuel IH]; intros T Q Hret Hroot HL; simpl in Hret; [done|].
  destruct (heappop Q) as [[[currCost currNode] Q']|]; [|done].
  destruct (decide (currNode = dest)) as [->|Hne].
  - apply bind_returns in Hret as (p' & Hbuild & Hret). simplify_eq.
    apply build_path_returns in Hbuild as (l & -> & Hch). by eapply chain_trail.
  - apply bind_returns in Hret as (edges & Hadj & Hret).
    apply bind_returns in Hret as ([T1 Q1] & Hrel & Hret).
    eapply IH; [done| |].
    + by eapply relax_all_rooted.
    + by eapply relax_all_linked.
Qed.

Lemma linked_init start (c : F) : linked adj graph (<[start := (c, None)]> ∅).
Proof.
  intros v c' u Hv. apply lookup_insert_Some in Hv as [[_ ?]|[_ Hv]]; [done|].
  by rewrite lookup_empty in Hv.
Qed.

(** Consecutive cells of a path are joined by an edge. *)
Lemma trail_steps start l c :
  trail adj graph start l c →
  ∀ i v u, l !! i = Some v → l !! S i = Some u →
    ∃ edges w, adj graph u = Returns edges ∧ (w, v) ∈ edges.
Proof.
  induction 1 as [|u l c edges w v Htr IH Hadj Hin]; intros i x y Hx Hy.
  - by destruct i.
  - destruct i as [|i]; simpl in *.
    + simplify_eq. by exists edges, w.
    + by eapply IH.
Qed.

End MorePaths.

(** X6.  Whatever the arithmetic and the adjacency function, a list that
    [dijkstras_shortest_path] returns is a path of the graph from the start:
    each cell of it was listed by [adj] as an edge out of the cell that
    follows it in the list. *)
Theorem returned_path_is_a_path {F : Type} `{Num F} {G : Type} (fuel : nat)
    (start dest : cell) (graph : G) (adj : G → cell → result (list (F * cell)))
    (p : list cell) :
  dijkstras_shortest_path fuel start dest graph adj = Returns (Some p) →
  (∃ c, trail adj graph start p c) ∧
  ∀ i v u, p !! i = Some v → p !! S i = Some u →
    ∃ edges w, adj graph u = Returns edges ∧ (w, v) ∈ edges.
Proof.
  intros Hret.
  assert (∃ c, trail adj graph start p c) as [c Htr].
  { eapply search_loop_trail; [exact Hret|apply rooted_init|apply linked_init]. }
  split; [by exists c|]. by eapply trail_steps.
Qed.

Lemma returned_path_is_a_path_witness :
  let p := [(2, 2); (1, 1); (0, 0)]%Z in
  (∃ c, trail navigation_edges walled3 (0, 0)%Z p c) ∧
  ∀ i v u, p !! i = Some v → p !! S i = Some u →
    ∃ edges w, navigation_edges walled3 u = Returns edges ∧ (w, v) ∈ edges.
Proof.
  apply (returned_path_is_a_path 30 (0, 0)%Z (2, 2)%Z walled3 navigation_edges).
  vm_compute. reflexivity.
Defined.

(** X7.  On a grid, whatever the arithmetic, a returned path moves one step
    at a time: consecutive cells of the list are neighbours (one of the
    eight), and when the list has more than one cell none of its cells is
    a wall. *)
Theorem returned_path_steps {F : Type} `{Num F} (fuel : nat) (start dest : cell)
    (lvl : level F) (p : list cell) :
  dijkstras_shortest_path fuel start dest lvl navigation_edges = Returns (Some p) →
  ∀ i v u, p !! i = Some v → p !! S i = Some u →
    v ∈ neighbours u ∧ (v ∉ walls lvl) ∧ (u ∉ walls lvl).
Proof.
  intros Hret i v u Hv Hu.
  assert (∃ c, trail navigation_edges lvl start p c) as [c Htr].
  { eapply search_loop_trail; [exact Hret|apply rooted_init|apply linked_init]. }
  destruct (trail_steps _ _ _ _ _ Htr i v u Hv Hu) as (edges & w & Hadj & Hin).
  destruct (navigation_edges_returns _ _ _ Hadj) as [_ Hedges].
  destruct (Hedges _ _ Hin) as (? & ? & ? & _). done.
Qed.

Lemma returned_path_steps_witness :
  (2, 2)%Z ∈ neighbours (1, 1)%Z ∧ ((2, 2)%Z ∉ walls walled3) ∧ ((1, 1)%Z ∉ walls walled3).
Proof.
  assert (dijkstras_shortest_path 30 (0, 0)%Z (2, 2)%Z walled3 navigation_edges
          = Returns (Some [(2, 2); (1, 1); (0, 0)]%Z)) as Hret
    by (vm_compute; reflexivity).
  exact (returned_path_steps 30 (0, 0)%Z (2, 2)%Z walled3 _ Hret 0%nat
           (2, 2)%Z (1, 1)%Z eq_refl eq_refl).
Defined.

(** ** The shape of a returned path (exact arithmetic) *)

Section MoreChains.
Context {F : Type}.
Implicit Types (T : gmap cell (F * option cell)).

Lemma chain_unique T l l' : chain T l → chain T l' → head l = head l' → l = l'.
Proof.
  intros Hch. revert l'. induction Hch as [v c Hv|v c u l Hv Hch IH]; intros l' Hch' Hhd;
    inversion Hch' as [v' c' Hv'|v' c' u' l0 Hv' Hch0]; subst; simpl in Hhd;
    injection Hhd as ->; rewrite Hv in Hv'; simplify_eq; try done.
  f_equal. by apply IH.
Qed.

Lemma chain_suffix T l1 u l2 : chain T (l1 ++ u :: l2) → chain T (u :: l2).
Proof.
  induction l1 as [|a l1 IH]; intros Hch; [done|]. apply IH. simpl in Hch.
  inversion Hch as [v' c' Hv'|v' c' u' l0 Hv' Hch0].
  - match goal with Heq : [] = _ |- _ => destruct l1; discriminate Heq end.
  - first [exact Hch0|match goal with Heq : _ = l1 ++ _ |- _ => by rewrite <- Heq end].
Qed.

End MoreChains.

Section MoreDijkstra.
Local Open Scope R_scope.
Context {G : Type}.
Variable adj : G → cell → result (list (R * cell)).
Variable graph : G.
Variable start : cell.
Variable ok : cell → Prop.
Variable V : gset cell.
Variable D : nat.
Hypothesis Hregion : region adj graph ok D.
Hypothesis HV : ∀ v, ok v → v ∈ V.
Hypothesis Hstart : ok start.
Implicit Types (T : gmap cell (R * option cell)) (Q : list (R * cell)) (S : gset cell).

(** A returned path repeats no cell, and each of its tails is a cheapest
    path to the cell the tail begins with. *)
Lemma search_loop_path fuel pfuel dest T Q S p :
  search_inv adj graph start ok T Q S → dest ∉ S →
  search_loop adj graph fuel pfuel dest T Q = Returns (Some p) →
  NoDup p ∧ (length p ≤ size V)%nat ∧
  ∀ l1 u l2, p = l1 ++ u :: l2 →
    ∃ cu, trail adj graph start (u :: l2) cu ∧
          ∀ l' c', trail adj graph start (u :: l') c' → cu <= c'.
Proof.
  revert T Q S. induction fuel as [|fuel IH]; intros T Q S Hinv Hdest Hret; [done|].
  simpl in Hret. destruct (heappop Q) as [[[c u] Q']|] eqn:Hpop; [|done].
  destruct (decide (u = dest)) as [->|Hne].
  - apply bind_returns in Hret as (p' & Hbuild & Hret). simplify_eq.
    apply build_path_returns in Hbuild as (l & -> & Hch). simpl in *.
    destruct (pop_settles adj graph start ok D Hregion Hstart _ _ _ _ _ _ Hinv Hpop Hdest)
      as (pu & HTu & Hfin).
    destruct (inv_chain Hinv _ _ _ HTu) as (l0 & Hch0 & Hnd & Htr & Hdone).
    assert (dest :: l = dest :: l0) as Heq by (by eapply chain_unique).
    simplify_eq. split_and!; [done| |].
    + destruct (chain_length adj graph start ok V D Hregion HV Hstart _ _ _ _ _ _ Hinv HTu)
        as (l1 & Hch1 & _ & Hlen).
      assert (dest :: l0 = dest :: l1) as Heq by (by eapply chain_unique).
      by simplify_eq.
    + intros l1 u l2 Heq. destruct l1 as [|a l1]; simpl in Heq; simplify_eq.
      { exists c. by split. }
      assert (u ∈ l1 ++ u :: l2) as Hu by (apply elem_of_app; right; by left).
      apply Hdone in Hu.
      destruct (inv_relaxed Hinv _ Hu) as (cu & pu' & lu & HTu' & _).
      destruct (inv_chain Hinv _ _ _ HTu') as (l3 & Hch3 & _ & Htr3 & _).
      assert (u :: l2 = u :: l3) as Heq.
      { eapply chain_unique; [|done..]. eapply (chain_suffix _ (a :: l1)). exact Hch0. }
      simplify_eq. exists cu. split; [done|]. intros l' c' Htr'.
      by eapply (inv_final Hinv).
  - destruct (expand_step adj graph start ok V D Hregion HV Hstart _ _ _ _ _ _ Hinv Hpop)
      as (l & T' & Q'' & Hadj & Hrel & Hinv' & _).
    rewrite Hadj in Hret. simpl in Hret. rewrite Hrel in Hret. simpl in Hret.
    apply (IH T' Q'' (S ∪ {[u]})); [done| |done].
    intros Hin. apply elem_of_union in Hin as [?|Hin%elem_of_singleton]; congruence.
Qed.

Lemma search_path fuel dest p :
  dijkstras_shortest_path fuel start dest graph adj = Returns (Some p) →
  NoDup p ∧ (length p ≤ size V)%nat ∧
  ∀ l1 u l2, p = l1 ++ u :: l2 →
    ∃ cu, trail adj graph start (u :: l2) cu ∧
          ∀ l' c', trail adj graph start (u :: l') c' → cu <= c'.
Proof.
  intros Hret. eapply (search_loop_path fuel fuel dest _ _ ∅); [|apply not_elem_of_empty|exact Hret].
  by apply search_inv_init.
Qed.

End MoreDijkstra.

(** X8.  On a well-formed level a returned path visits no cell twice, has
    at most as many cells as the level has weighted cells (and the start),
    and every tail of the list is itself a cheapest path from the start to
    the cell the tail begins with. *)
Theorem returned_path_simple (lvl : level R) (start dest : cell) (fuel : nat)
    (p : list cell) :
  well_formed lvl → in_level lvl start →
  dijkstras_shortest_path fuel start dest lvl navigation_edges = Returns (Some p) →
  NoDup p ∧
  (length p ≤ 1 + size (spaces lvl) + size (waypoints lvl))%nat ∧
  ∀ l1 u l2, p = l1 ++ u :: l2 →
    ∃ cu, trail navigation_edges lvl start (u :: l2) cu ∧
          ∀ l' c', trail navigation_edges lvl start (u :: l') c' → (cu <= c')%R.
Proof.
  intros Hwf Hstart Hret.
  destruct (search_path navigation_edges lvl start (grid_ok lvl start)
              (grid_cells lvl start) 8 (grid_region lvl start Hwf Hstart)
              (grid_ok_cells lvl start) ltac:(by left) fuel dest p Hret)
    as (Hnd & Hlen & Hsuf).
  split_and!; [done| |done].
  pose proof (grid_cells_size lvl start). lia.
Qed.

Lemma returned_path_simple_witness :
  let p := [(1, 0); (0, 0)]%Z in
  NoDup p ∧
  (length p ≤ 1 + size (spaces corridor) + size (waypoints corridor))%nat ∧
  ∀ l1 u l2, p = l1 ++ u :: l2 →
    ∃ cu, trail navigation_edges corridor (0, 0)%Z (u :: l2) cu ∧
          ∀ l' c', trail navigation_edges corridor (0, 0)%Z (u :: l') c' → (cu <= c')%R.
Proof.
  apply (returned_path_simple corridor (0, 0)%Z (1, 0)%Z 26).
  - exact corridor_well_formed.
  - right. by eexists.
  - reflexivity.
Defined.

(** ** What a returned cost mapping tells (exact arithmetic, any level) *)

Section MoreCompleted.
Local Open Scope R_scope.
Implicit Types (lvl : level R) (m : gmap cell R).

Lemma completed_trail_tracked lvl start fuel m l c :
  dijkstras_shortest_path_to_all fuel start lvl navigation_edges = Returns m →
  trail navigation_edges lvl start l c → ∀ x, x ∈ l → is_Some (m !! x).
Proof.
  intros Hret Htr. destruct (grid_completed_region _ _ _ _ Hret) as [Hreg Hs].
  exact (trail_ok navigation_edges lvl start _ 8 Hreg Hs l c Htr).
Qed.

End MoreCompleted.

Section CompletedCosts.
Local Open Scope R_scope.
Implicit Types (lvl : level R) (m : gmap cell R).

(** X9.  Whenever the cost search returns a mapping, on any level: its keys
    are exactly the cells that a path of listed edges reaches from the
    start, and the cost stored for a cell is not more than the cost of any
    path to it. *)
Theorem costs_cover_reachable_cells lvl (start : cell) (fuel : nat) m :
  dijkstras_shortest_path_to_all fuel start lvl navigation_edges = Returns m →
  ∀ v, (is_Some (m !! v) ↔ reachable navigation_edges lvl start v) ∧
       ∀ c, m !! v = Some c →
            ∀ l' c', trail navigation_edges lvl start (v :: l') c' → c <= c'.
Proof.
  intros Hret v. destruct (grid_completed_to_all _ _ _ _ Hret) as [_ Hspec]. split.
  - split.
    + intros [c Hc]. apply Hspec in Hc as [[l Htr] _]. by exists l, c.
    + intros (l & c & Htr). eapply completed_trail_tracked; [done..|by left].
  - intros c Hc. by apply Hspec in Hc as [_ Hmin].
Qed.

Lemma costs_cover_reachable_cells_witness :
  (is_Some (corridor_costs !! (1, 0)%Z) ↔
     reachable navigation_edges corridor (0, 0)%Z (1, 0)%Z) ∧
  ∀ c, corridor_costs !! (1, 0)%Z = Some c →
       ∀ l' c', trail navigation_edges corridor (0, 0)%Z ((1, 0)%Z :: l') c' → c <= c'.
Proof.
  exact (costs_cover_reachable_cells corridor (0, 0)%Z 26 corridor_costs
           corridor_costs_from_space (1, 0)%Z).
Defined.

(** X10.  A returned cost mapping is a fixed point of the relaxation: for
    every key [u] the edges of [u] are listed, each edge [(w, v)] leads to
    a key and [m v <= w + m u]; and every key other than the start has an
    edge into it for which this holds with equality. *)
Theorem costs_are_relaxed lvl (start : cell) (fuel : nat) m :
  dijkstras_shortest_path_to_all fuel start lvl navigation_edges = Returns m →
  (∀ u cu, m !! u = Some cu →
     ∃ l, navigation_edges lvl u = Returns l ∧
          ∀ w v, (w, v) ∈ l → ∃ cv, m !! v = Some cv ∧ cv <= w + cu) ∧
  (∀ v cv, m !! v = Some cv → v ≠ start →
     ∃ u cu l w, m !! u = Some cu ∧ navigation_edges lvl u = Returns l ∧
                 (w, v) ∈ l ∧ cv = w + cu).
Proof.
  intros Hret.
  assert (∀ u cu, m !! u = Some cu →
            ∃ l, navigation_edges lvl u = Returns l ∧
                 ∀ w v, (w, v) ∈ l → ∃ cv, m !! v = Some cv ∧ cv <= w + cu) as Hrel.
  { eapply to_all_completed; [|done]. intros u l w v. apply navigation_edges_noself. }
  split; [done|]. intros v cv Hv Hne.
  destruct (grid_completed_to_all _ _ _ _ Hret) as [_ Hspec].
  pose proof Hv as Hv'. apply Hspec in Hv' as [[l Htr] Hmin].
  inversion Htr as [|u l0 c0 edges w v0 Htr0 Hadj Hin]; simplify_eq. real_ops.
  assert (is_Some (m !! u)) as [cu Hu].
  { eapply completed_trail_tracked; [done..|by left]. }
  pose proof Hu as Hu'. apply Hspec in Hu' as [_ Hminu]. specialize (Hminu _ _ Htr0).
  destruct (Hrel _ _ Hu) as (lu & Hlu & Hedges).
  rewrite Hadj in Hlu. simplify_eq.
  destruct (Hedges _ _ Hin) as (cv' & Hv' & Hle). rewrite Hv in Hv'. simplify_eq.
  exists u, cu, lu, w. split_and!; [done..|]. lra.
Qed.

Lemma costs_are_relaxed_witness :
  (∀ u cu, corridor_costs !! u = Some cu →
     ∃ l, navigation_edges corridor u = Returns l ∧
          ∀ w v, (w, v) ∈ l → ∃ cv, corridor_costs !! v = Some cv ∧ cv <= w + cu) ∧
  (∀ v cv, corridor_costs !! v = Some cv → v ≠ (0, 0)%Z →
     ∃ u cu l w, corridor_costs !! u = Some cu ∧ navigation_edges corridor u = Returns l ∧
                 (w, v) ∈ l ∧ cv = w + cu).
Proof.
  exact (costs_are_relaxed corridor (0, 0)%Z 26 corridor_costs corridor_costs_from_space).
Defined.

End CompletedCosts.

(** ** Which cells the cost search reaches, for any arithmetic *)

Section GridKeys.
Context {F : Type} `{Num F}.
Implicit Types (lvl : level F) (m : gmap cell F).

(** A listed edge has an edge back. *)
Lemma navigation_edges_back lvl u v w lu lv :
  navigation_edges lvl u = Returns lu → (w, v) ∈ lu →
  navigation_edges lvl v = Returns lv → ∃ w', (w', u) ∈ lv.
Proof.
  intros Hu Hin Hv. destruct (navigation_edges_returns _ _ _ Hu) as [_ Hedges].
  destruct (Hedges _ _ Hin) as (Huw & Hvw & _ & d & pw & w0 & Hd & _).
  apply adj_points_sym in Hd.
  destruct (navigation_edges_edge _ _ _ _ _ Hv Hvw Hd Huw) as (wa & wb & _ & _ & Hin').
  by eexists.
Qed.

(** On a level where the cost search from [a] returns, a path from [a]
    can be walked back. *)
Lemma trail_back lvl a fuel m l c :
  dijkstras_shortest_path_to_all fuel a lvl navigation_edges = Returns m →
  trail navigation_edges lvl a l c →
  ∀ v, head l = Some v → reachable navigation_edges lvl v a.
Proof.
  intros Hret Htr. destruct (to_all_keys _ _ _ _ _ Hret) as (_ & Hclosed & Hkeys).
  induction Htr as [|u l c edges w v Htr IH Hadj Hin]; intros v' Hhd;
    simpl in Hhd; simplify_eq.
  - exists [], (of_int 0). apply trail_start.
  - destruct (IH u eq_refl) as (l' & c' & Hua).
    assert (is_Some (m !! v')) as Hv.
    { apply Hkeys. exists (u :: l), (nadd w c). by eapply trail_step. }
    destruct (Hclosed v' Hv) as (lv & Hlv & _).
    destruct (navigation_edges_back _ _ _ _ _ _ Hadj Hin Hlv) as [w' Hback].
    assert (trail navigation_edges lvl v' [u; v'] (nadd w' (of_int 0))) as Hstep.
    { exact (trail_step navigation_edges lvl v' v' [] (of_int 0) lv w' u
               (trail_start navigation_edges lvl v') Hlv Hback). }
    exact (trail_join navigation_edges lvl v' u [v'] _ (a :: l') c' Hstep Hua a eq_refl).
Qed.

End GridKeys.

(** X11.  Whatever the arithmetic, reaching is symmetric: when the cost
    search returns from [a] and from [b] on the same level, [b] is a key
    of the mapping from [a] exactly when [a] is a key of the mapping from
    [b]. *)
Theorem keys_are_symmetric {F : Type} `{Num F} (lvl : level F) (a b : cell)
    (fa fb : nat) (ma mb : gmap cell F) :
  dijkstras_shortest_path_to_all fa a lvl navigation_edges = Returns ma →
  dijkstras_shortest_path_to_all fb b lvl navigation_edges = Returns mb →
  is_Some (ma !! b) ↔ is_Some (mb !! a).
Proof.
  intros Ha Hb.
  destruct (to_all_keys _ _ _ _ _ Ha) as (_ & _ & Hka).
  destruct (to_all_keys _ _ _ _ _ Hb) as (_ & _ & Hkb).
  split.
  - intros (l & c & Htr)%Hka. apply Hkb.
    exact (trail_back lvl a fa ma _ _ Ha Htr b eq_refl).
  - intros (l & c & Htr)%Hkb. apply Hka.
    exact (trail_back lvl b fb mb _ _ Hb Htr a eq_refl).
Qed.

Lemma keys_are_symmetric_witness :
  is_Some (walled3_costs_from (0, 0)%Z !! (2, 1)%Z) ↔
  is_Some (walled3_costs_from (2, 1)%Z !! (0, 0)%Z).
Proof.
  assert (dijkstras_shortest_path_to_all 30 (0, 0)%Z walled3 navigation_edges
          = Returns (walled3_costs_from (0, 0)%Z)) as Ha by (vm_compute; reflexivity).
  assert (dijkstras_shortest_path_to_all 30 (2, 1)%Z walled3 navigation_edges
          = Returns (walled3_costs_from (2, 1)%Z)) as Hb by (vm_compute; reflexivity).
  exact (keys_are_symmetric walled3 (0, 0)%Z (2, 1)%Z 30 30 _ _ Ha Hb).
Defined.

(** X12.  Whatever the arithmetic, reaching is transitive: when [b] is a
    key of the mapping from [a], every key of the mapping from [b] is a
    key of the mapping from [a]. *)
Theorem keys_are_transitive {F : Type} `{Num F} (lvl : level F) (a b c : cell)
    (fa fb : nat) (ma mb : gmap cell F) :
  dijkstras_shortest_path_to_all fa a lvl navigation_edges = Returns ma →
  dijkstras_shortest_path_to_all fb b lvl navigation_edges = Returns mb →
  is_Some (ma !! b) → is_Some (mb !! c) → is_Some (ma !! c).
Proof.
  intros Ha Hb Hab Hbc.
  destruct (to_all_keys _ _ _ _ _ Ha) as (_ & _ & Hka).
  destruct (to_all_keys _ _ _ _ _ Hb) as (_ & _ & Hkb).
  apply Hka in Hab as (l1 & x & Hab). apply Hkb in Hbc as (l2 & y & Hbc).
  apply Hka. exact (trail_join navigation_edges lvl a b l1 x _ y Hab Hbc c eq_refl).
Qed.

Lemma keys_are_transitive_witness :
  is_Some (walled3_costs_from (0, 0)%Z !! (2, 2)%Z).
Proof.
  assert (dijkstras_shortest_path_to_all 30 (0, 0)%Z walled3 navigation_edges
          = Returns (walled3_costs_from (0, 0)%Z)) as Ha by (vm_compute; reflexivity).
  assert (dijkstras_shortest_path_to_all 30 (1, 1)%Z walled3 navigation_edges
          = Returns (walled3_costs_from (1, 1)%Z)) as Hb by (vm_compute; reflexivity).
  assert (is_Some (walled3_costs_from (0, 0)%Z !! (1, 1)%Z)) as Hab
    by (vm_compute; eexists; reflexivity).
  assert (is_Some (walled3_costs_from (1, 1)%Z !! (2, 2)%Z)) as Hbc
    by (vm_compute; eexists; reflexivity).
  exact (keys_are_transitive walled3 (0, 0)%Z (1, 1)%Z (2, 2)%Z 30 30 _ _ Ha Hb Hab Hbc).
Defined.

Section CompletedDistances.
Local Open Scope R_scope.
Implicit Types (lvl : level R) (m : gmap cell R).

Lemma completed_cost lvl start fuel m v l c :
  dijkstras_shortest_path_to_all fuel start lvl navigation_edges = Returns m →
  trail navigation_edges lvl start (v :: l) c →
  ∃ cv, m !! v = Some cv ∧ cv <= c.
Proof.
  intros Hret Htr. destruct (grid_completed_to_all _ _ _ _ Hret) as [_ Hspec].
  assert (is_Some (m !! v)) as [cv Hv].
  { eapply completed_trail_tracked; [done..|by left]. }
  exists cv. split; [done|]. apply Hspec in Hv as [_ Hmin]. by eapply Hmin.
Qed.

Lemma completed_trail lvl start fuel m v cv :
  dijkstras_shortest_path_to_all fuel start lvl navigation_edges = Returns m →
  m !! v = Some cv → ∃ l, trail navigation_edges lvl start (v :: l) cv.
Proof.
  intros Hret Hv. destruct (grid_completed_to_all _ _ _ _ Hret) as [_ Hspec].
  by apply Hspec in Hv as [? _].
Qed.

(** X13.  The two searches agree on which cells can be reached: on any
    level where the cost search returns a mapping [m], the path search
    with enough fuel returns [None] exactly for the destinations that are
    not keys of [m], and a path for every key. *)
Theorem search_agrees_with_costs lvl (start dest : cell) (fuel fuel' : nat) m :
  dijkstras_shortest_path_to_all fuel start lvl navigation_edges = Returns m →
  (8 * size m + 2 ≤ fuel')%nat →
  (dijkstras_shortest_path fuel' start dest lvl navigation_edges = Returns None
     ↔ m !! dest = None) ∧
  ((∃ p, dijkstras_shortest_path fuel' start dest lvl navigation_edges = Returns (Some p))
     ↔ is_Some (m !! dest)).
Proof.
  intros Hret Hfuel.
  destruct (grid_completed_search lvl start fuel m dest fuel' Hret Hfuel)
    as [(l & c & Hsearch & Htr & _)|[Hnone Hno]].
  - destruct (completed_cost _ _ _ _ _ _ _ Hret Htr) as (cv & Hv & _).
    rewrite Hsearch, Hv. split.
    + split; intros Heq; discriminate Heq.
    + split; intros _; eexists; reflexivity.
  - assert (m !! dest = None) as Hv.
    { destruct (m !! dest) as [cv|] eqn:Hv; [|done]. destruct Hno.
      destruct (completed_trail _ _ _ _ _ _ Hret Hv) as [l Htr]. by exists l, cv. }
    rewrite Hnone, Hv. split.
    + split; intros _; reflexivity.
    + split; [intros [p Hp]; discriminate Hp|intros [x Hx]; discriminate Hx].
Qed.

Lemma search_agrees_with_costs_witness :
  (dijkstras_shortest_path 26 (0, 0)%Z (5, 5)%Z corridor navigation_edges = Returns None
     ↔ corridor_costs !! (5, 5)%Z = None) ∧
  ((∃ p, dijkstras_shortest_path 26 (0, 0)%Z (5, 5)%Z corridor navigation_edges
           = Returns (Some p))
     ↔ is_Some (corridor_costs !! (5, 5)%Z)).
Proof.
  apply (search_agrees_with_costs corridor (0, 0)%Z (5, 5)%Z 26 26 corridor_costs).
  - exact corridor_costs_from_space.
  - vm_compute. lia.
Defined.

End CompletedDistances.

(** ** Weights that are zero *)

Section Signs.
Local Open Scope R_scope.
Implicit Types (lvl : level R) (m : gmap cell R).

Lemma nonneg_region lvl start :
  nonneg_level lvl → in_level lvl start →
  region navigation_edges lvl (grid_ok lvl start) 8.
Proof.
  intros [Hpos Hclosed] Hstart u Hu.
  destruct (decide (u ∈ walls lvl)) as [Hw|Hw].
  - exists []. rewrite navigation_edges_wall by done. split_and!; [done|simpl; lia|].
    intros w v Hin. by apply elem_of_nil in Hin.
  - assert (passable lvl u) as Hpu.
    { destruct Hu as [->|?]; [|done]. by destruct Hstart. }
    destruct (navigation_edges_total lvl u Hpu) as [l Hl];
      [intros n Hn; by apply (Hclosed u n)|].
    exists l. destruct (navigation_edges_returns _ _ _ Hl) as [Hlen Hedges].
    split_and!; [done..|]. intros w v Hin.
    destruct (Hedges _ _ Hin) as (_ & Hvw & _ & d & pw & w0 & Hd & Hpw & Hw0 & ->).
    real_ops. change (@nmul R Num_R) with Rmult. change (@ndiv R Num_R) with Rdiv.
    apply adj_points_pos in Hd. pose proof (Hpos _ _ Hpw). pose proof (Hpos _ _ Hw0).
    split; [|right; split; [done|by eexists]].
    apply Rmult_le_pos; [|lra]. apply Rmult_le_pos; lra.
Qed.

Lemma nonneg_level_intro lvl :
  map_Forall (λ _ w, 0 <= w) (spaces lvl) →
  map_Forall (λ _ w, 0 <= w) (waypoints lvl) →
  closed_in lvl → nonneg_level lvl.
Proof.
  intros Hs Hw Hc. split.
  - intros c w. unfold weight. destruct (spaces lvl !! c) as [w'|] eqn:Hsc.
    + intros [= <-]. by apply (Hs c).
    + apply (Hw c).
  - intros c n [Hnw Hc'] Hn. apply weighted_cells_weight in Hc'.
    destruct (Hc c Hc') as [?|Hall]; [contradiction|].
    rewrite Forall_forall in Hall. destruct (Hall n Hn) as [?|?]; [by left|right].
    by apply weighted_cells_weight.
Qed.

Lemma flat_nonneg : nonneg_level flat.
Proof.
  apply nonneg_level_intro; [apply map_Forall_singleton; lra..|].
  apply (bool_decide_unpack _). vm_compute. exact I.
Defined.

(** X14.  Weights need not be positive: with weights that are zero or
    more, on a level closed in by walls, [fuel_bound] iterations still
    suffice; the path search returns a cheapest path or, when there is
    none, [None], and the cost search returns a mapping. *)
Theorem zero_weights_are_fine lvl (start dest : cell) (fuel : nat) :
  nonneg_level lvl → in_level lvl start → (fuel_bound lvl ≤ fuel)%nat →
  ((∃ l c, dijkstras_shortest_path fuel start dest lvl navigation_edges
             = Returns (Some (dest :: l)) ∧
           trail navigation_edges lvl start (dest :: l) c ∧
           ∀ l' c', trail navigation_edges lvl start (dest :: l') c' → c <= c') ∨
   (dijkstras_shortest_path fuel start dest lvl navigation_edges = Returns None ∧
    ¬ reachable navigation_edges lvl start dest)) ∧
  ∃ m, dijkstras_shortest_path_to_all fuel start lvl navigation_edges = Returns m.
Proof.
  intros Hnn Hstart Hfuel. destruct (grid_fuel lvl start fuel Hfuel) as [Hf1 Hf2].
  pose proof (nonneg_region lvl start Hnn Hstart) as Hreg. split.
  - apply (search_spec navigation_edges lvl start (grid_ok lvl start)
             (grid_cells lvl start) 8 Hreg (grid_ok_cells lvl start) ltac:(by left));
      done.
  - destruct (to_all_spec navigation_edges lvl start (grid_ok lvl start)
                (grid_cells lvl start) 8 Hreg (grid_ok_cells lvl start)
                ltac:(by left) fuel Hf1) as (m & Hm & _).
    by exists m.
Qed.

Lemma zero_weights_are_fine_witness :
  ((∃ l c, dijkstras_shortest_path 26 (0, 0)%Z (1, 0)%Z flat navigation_edges
             = Returns (Some ((1, 0)%Z :: l)) ∧
           trail navigation_edges flat (0, 0)%Z ((1, 0)%Z :: l) c ∧
           ∀ l' c', trail navigation_edges flat (0, 0)%Z ((1, 0)%Z :: l') c' → c <= c') ∨
   (dijkstras_shortest_path 26 (0, 0)%Z (1, 0)%Z flat navigation_edges = Returns None ∧
    ¬ reachable navigation_edges flat (0, 0)%Z (1, 0)%Z)) ∧
  ∃ m, dijkstras_shortest_path_to_all 26 (0, 0)%Z flat navigation_edges = Returns m.
Proof.
  apply (zero_weights_are_fine flat (0, 0)%Z (1, 0)%Z 26).
  - exact flat_nonneg.
  - right. by eexists.
  - vm_compute. lia.
Defined.

End Signs.

(** ** Any adjacency function *)

Section AnyGraph.
Local Open Scope R_scope.

Lemma one_way_region :
  region one_way () (λ v, v = (0, 0)%Z ∨ v = (1, 0)%Z ∨ v = (2, 0)%Z) 2.
Proof.
  intros u [->|[->| ->]].
  - exists [(5, (2, 0)%Z); (1, (1, 0)%Z)]. split_and!; [reflexivity|simpl; lia|].
    intros w v Hin. apply elem_of_cons in Hin as [Heq|Hin].
    + simplify_eq. split; [lra|by right; right].
    + apply list_elem_of_singleton in Hin. simplify_eq. split; [lra|by right; left].
  - exists [(1, (2, 0)%Z)]. split_and!; [reflexivity|simpl; lia|].
    intros w v Hin. apply list_elem_of_singleton in Hin. simplify_eq.
    split; [lra|by right; right].
  - exists []. split_and!; [reflexivity|simpl; lia|].
    intros w v Hin. by apply elem_of_nil in Hin.
Defined.

(** X16.  The searches do not depend on the grid: for any adjacency
    function whose edges, from the cells of a finite set that holds the
    start, have costs that are not negative, lead back into the set and
    number at most [D] a cell, the path search returns a cheapest path to
    the destination, or [None] when no path reaches it, and the cost search
    returns for each reachable cell, and for no other, the least cost of a
    path to it. *)
Theorem searches_correct_on_any_graph {G : Type}
    (adj : G → cell → result (list (R * cell))) (graph : G) (start dest : cell)
    (ok : cell → Prop) (V : gset cell) (D fuel : nat) :
  region adj graph ok D → (∀ v, ok v → v ∈ V) → ok start →
  (1 + D * size V < fuel)%nat → (size V ≤ fuel)%nat →
  ((∃ l c, dijkstras_shortest_path fuel start dest graph adj = Returns (Some (dest :: l)) ∧
           trail adj graph start (dest :: l) c ∧
           ∀ l' c', trail adj graph start (dest :: l') c' → c <= c') ∨
   (dijkstras_shortest_path fuel start dest graph adj = Returns None ∧
    ¬ reachable adj graph start dest)) ∧
  ∃ m, dijkstras_shortest_path_to_all fuel start graph adj = Returns m ∧
       m !! start = Some 0 ∧
       ∀ v c, m !! v = Some c ↔
         (∃ l, trail adj graph start (v :: l) c) ∧
         (∀ l' c', trail adj graph start (v :: l') c' → c <= c').
Proof.
  intros Hreg HV Hstart Hf1 Hf2. split.
  - exact (search_spec adj graph start ok V D Hreg HV Hstart fuel dest Hf1 Hf2).
  - exact (to_all_spec adj graph start ok V D Hreg HV Hstart fuel Hf1).
Qed.

Lemma searches_correct_on_any_graph_witness :
  ((∃ l c, dijkstras_shortest_path 8 (0, 0)%Z (2, 0)%Z () one_way
             = Returns (Some ((2, 0)%Z :: l)) ∧
           trail one_way () (0, 0)%Z ((2, 0)%Z :: l) c ∧
           ∀ l' c', trail one_way () (0, 0)%Z ((2, 0)%Z :: l') c' → c <= c') ∨
   (dijkstras_shortest_path 8 (0, 0)%Z (2, 0)%Z () one_way = Returns None ∧
    ¬ reachable one_way () (0, 0)%Z (2, 0)%Z)) ∧
  ∃ m, dijkstras_shortest_path_to_all 8 (0, 0)%Z () one_way = Returns m ∧
       m !! (0, 0)%Z = Some 0 ∧
       ∀ v c, m !! v = Some c ↔
         (∃ l, trail one_way () (0, 0)%Z (v :: l) c) ∧
         (∀ l' c', trail one_way () (0, 0)%Z (v :: l') c' → c <= c').
Proof.
  apply (searches_correct_on_any_graph one_way () (0, 0)%Z (2, 0)%Z
           (λ v, v = (0, 0)%Z ∨ v = (1, 0)%Z ∨ v = (2, 0)%Z)
           {[ (0, 0)%Z; (1, 0)%Z; (2, 0)%Z ]} 2 8).
  - exact one_way_region.
  - intros v [->|[->| ->]]; apply (bool_decide_unpack _); vm_compute; exact I.
  - by left.
  - vm_compute. lia.
  - vm_compute. lia.
Defined.

End AnyGraph.
